(** * The pod-mutating admission webhook of tensile-kube (pkg/webhook/hook.go)

    A shallow embedding of the mutation pipeline: the eligibility rules, the
    node-selector / node-affinity / toleration rewrite, the volume-affinity
    resolver and the admission decision, followed by the properties of the
    design document that are decided by that code. *)

From stdpp Require Import base option strings list gmap.

(** ** Results of code that may panic

    Go slice expressions panic when their bounds are out of range; a panic
    unwinds [inject] and [mutate], so that no value is returned. *)

Inductive result (A : Type) : Type :=
| Ok (a : A)
| Panic (msg : string).
Arguments Ok {A} a.
Arguments Panic {A} msg.

#[global] Instance result_ret : MRet result := fun A a => Ok a.
#[global] Instance result_bind : MBind result := fun A B f m =>
  match m with
  | Ok a => f a
  | Panic msg => Panic msg
  end.

(** ** Data model: the part of the Kubernetes API objects the webhook reads *)

(** corev1.Toleration. [Operator] and [Effect] are string-typed in Go. *)
Record Toleration := mkToleration {
  Key : string;
  Operator : string;
  Value : string;
  Effect : string;
  TolerationSeconds : option Z
}.

Definition TolerationOpExists : string := "Exists".
Definition TolerationOpEqual : string := "Equal".
Definition TaintEffectNoExecute : string := "NoExecute".
Definition TaintEffectNoSchedule : string := "NoSchedule".

(** The zero value of the struct, returned by a Go map for an absent key. *)
#[global] Instance Toleration_inhabited : Inhabited Toleration :=
  populate (mkToleration "" "" "" "" None).

(** corev1.NodeSelectorRequirement *)
Record NodeSelectorRequirement := mkRequirement {
  rKey : string;
  rOperator : string;
  rValues : list string
}.

(** corev1.NodeSelectorTerm *)
Record NodeSelectorTerm := mkTerm {
  MatchExpressions : list NodeSelectorRequirement;
  MatchFields : list NodeSelectorRequirement
}.

(** corev1.NodeSelector *)
Record NodeSelector := mkNodeSelector {
  NodeSelectorTerms : list NodeSelectorTerm
}.

(** corev1.PreferredSchedulingTerm *)
Record PreferredSchedulingTerm := mkPreferred {
  Weight : Z;
  Preference : NodeSelectorTerm
}.

(** corev1.NodeAffinity *)
Record NodeAffinity := mkNodeAffinity {
  RequiredDuringSchedulingIgnoredDuringExecution : option NodeSelector;
  PreferredDuringSchedulingIgnoredDuringExecution : list PreferredSchedulingTerm
}.

(** corev1.PodAffinityTerm, corev1.PodAffinity and corev1.PodAntiAffinity:
    the webhook never looks inside them. *)
Record PodAffinityTerm := mkPodAffinityTerm {
  LabelSelector : option (gmap string string);
  Namespaces : list string;
  TopologyKey : string
}.

Record PodAffinity := mkPodAffinity {
  paRequired : list PodAffinityTerm;
  paPreferred : list (Z * PodAffinityTerm)
}.

Record PodAntiAffinity := mkPodAntiAffinity {
  paaRequired : list PodAffinityTerm;
  paaPreferred : list (Z * PodAffinityTerm)
}.

(** corev1.Affinity; every field is a pointer. *)
Record Affinity := mkAffinity {
  aNodeAffinity : option NodeAffinity;
  aPodAffinity : option PodAffinity;
  aPodAntiAffinity : option PodAntiAffinity
}.

(** corev1.PersistentVolumeClaimVolumeSource and corev1.Volume *)
Record PersistentVolumeClaimVolumeSource := mkPVCSource {
  ClaimName : string;
  ReadOnly : bool
}.

Record Volume := mkVolume {
  vName : string;
  PersistentVolumeClaim : option PersistentVolumeClaimVolumeSource
}.

(** corev1.PodSpec. Maps and slices are [None] when they are nil in Go:
    [skipInject], [inject] and [trySetNodeName] tell nil from empty. *)
Record PodSpec := mkPodSpec {
  NodeName : string;
  NodeSelector_ : option (gmap string string);
  Affinity_ : option Affinity;
  Tolerations : option (list Toleration);
  Volumes : option (list Volume)
}.

Record OwnerReference := mkOwnerReference {
  UID : string
}.

(** corev1.Pod *)
Record Pod := mkPod {
  Namespace : string;
  Name : string;
  Labels : option (gmap string string);
  Annotations : option (gmap string string);
  OwnerReferences : list OwnerReference;
  Spec : PodSpec
}.

(** corev1.PersistentVolumeClaim, as far as the resolver reads it. *)
Record PersistentVolumeClaim_ := mkPVC {
  pvcAnnotations : option (gmap string string)
}.

(** Field updates [x.f = v]. *)
Definition set_NodeName (v : string) (s : PodSpec) : PodSpec :=
  mkPodSpec v (NodeSelector_ s) (Affinity_ s) (Tolerations s) (Volumes s).
Definition set_NodeSelector (v : option (gmap string string)) (s : PodSpec) : PodSpec :=
  mkPodSpec (NodeName s) v (Affinity_ s) (Tolerations s) (Volumes s).
Definition set_Affinity (v : option Affinity) (s : PodSpec) : PodSpec :=
  mkPodSpec (NodeName s) (NodeSelector_ s) v (Tolerations s) (Volumes s).
Definition set_Tolerations (v : option (list Toleration)) (s : PodSpec) : PodSpec :=
  mkPodSpec (NodeName s) (NodeSelector_ s) (Affinity_ s) v (Volumes s).
Definition set_Spec (v : PodSpec) (p : Pod) : Pod :=
  mkPod (Namespace p) (Name p) (Labels p) (Annotations p) (OwnerReferences p) v.
Definition set_Annotations (v : option (gmap string string)) (p : Pod) : Pod :=
  mkPod (Namespace p) (Name p) (Labels p) v (OwnerReferences p) (Spec p).

(** Ranging over a nil slice runs no iteration. *)
Definition range_of {A} (s : option (list A)) : list A := default [] s.

(** [m[k]] on a [map[string]string]: the zero value when [k] is absent,
    and also when the map is nil. *)
Definition go_index (m : gmap string string) (k : string) : string :=
  default "" (m !! k).

Definition index_map (m : option (gmap string string)) (k : string) : string :=
  match m with
  | Some m => go_index m k
  | None => ""
  end.

(** ** Toleration normalization (hook.go, lines 44-55 and 239-267) *)

Section Tolerations.

(** util.TaintNodeNotReady and util.TaintNodeUnreachable: constants of
    pkg/util, taken as parameters. *)
Variables TaintNodeNotReady TaintNodeUnreachable : string.

(** The template both entries of [desiredMap] are built from. *)
Definition canonical (k : string) : Toleration :=
  mkToleration k TolerationOpExists "" TaintEffectNoExecute None.

Definition desiredMap : gmap string Toleration :=
  {[ TaintNodeNotReady := canonical TaintNodeNotReady;
     TaintNodeUnreachable := canonical TaintNodeUnreachable ]}.

Definition addDefaultPodTolerations
    (tolerations : list Toleration) (notReady unSchedulable : bool) : list Toleration :=
  let tolerations :=
    if negb notReady then tolerations ++ [desiredMap !!! TaintNodeNotReady]
    else tolerations in
  let tolerations :=
    if negb unSchedulable then tolerations ++ [desiredMap !!! TaintNodeUnreachable]
    else tolerations in
  tolerations.

(** One iteration of the loop of [getPodTolerations]; the state is
    (tolerations, notReady, unSchedulable). *)
Definition toleration_step
    (st : list Toleration * bool * bool) (toleration : Toleration)
    : list Toleration * bool * bool :=
  let '(tolerations, notReady, unSchedulable) := st in
  let notReady :=
    if decide (Key toleration = TaintNodeNotReady) then true else notReady in
  let unSchedulable :=
    if decide (Key toleration = TaintNodeUnreachable) then true else unSchedulable in
  match desiredMap !! Key toleration with
  | Some _ => (tolerations ++ [desiredMap !!! Key toleration], notReady, unSchedulable)
  | None => (tolerations ++ [toleration], notReady, unSchedulable)
  end.

Definition getPodTolerations (pod : Pod) : list Toleration :=
  let '(tolerations, notReady, unSchedulable) :=
    foldl toleration_step ([], false, false) (range_of (Tolerations (Spec pod))) in
  addDefaultPodTolerations tolerations notReady unSchedulable.

(** *** The normalization as the design document words it *)

Definition well_known (k : string) : bool :=
  bool_decide (k = TaintNodeNotReady) || bool_decide (k = TaintNodeUnreachable).

Definition substitute (t : Toleration) : Toleration :=
  if well_known (Key t) then canonical (Key t) else t.

Definition seen (k : string) (l : list Toleration) : bool :=
  existsb (λ t, bool_decide (Key t = k)) l.

Definition normalized (l : list Toleration) : list Toleration :=
  (substitute <$> l)
    ++ (if seen TaintNodeNotReady l then [] else [canonical TaintNodeNotReady])
    ++ (if seen TaintNodeUnreachable l then [] else [canonical TaintNodeUnreachable]).

(** Number of entries of a toleration list with a given key. *)
Definition count_key (k : string) (l : list Toleration) : nat :=
  length (filter (λ t, Key t = k) l).

End Tolerations.

(** ** Go slices (the part [injectAffinity] relies on)

    A slice is a window of [len] cells at the start of a backing array; its
    capacity is the length of the array. Cells between [len] and the capacity
    keep whatever was last written there, and a reslice [s[:high]] may bring
    them back into view. *)

Section Slices.

Context {A : Type}.

Record slice := Slice { arr : list A; len : nat }.

Definition cap (s : slice) : nat := length (arr s).

(** The visible elements. *)
Definition elems (s : slice) : list A := take (len s) (arr s).

(** A freshly allocated slice, as [make] followed by a copy gives it
    (DeepCopy): capacity equals length. *)
Definition mk_slice (l : list A) : slice := Slice l (length l).

(** [s[:high]]: legal up to the capacity, not only up to the length. *)
Definition slice_to (s : slice) (high : Z) : result slice :=
  if bool_decide (0 ≤ high ≤ Z.of_nat (cap s))%Z
  then Ok (Slice (arr s) (Z.to_nat high))
  else Panic "slice bounds out of range".

(** [s[low:]], read as the values the variadic [append] copies: legal up
    to the length. *)
Definition slice_from (s : slice) (low : Z) : result (list A) :=
  if bool_decide (0 ≤ low ≤ Z.of_nat (len s))%Z
  then Ok (drop (Z.to_nat low) (elems s))
  else Panic "slice bounds out of range".

(** [append(s, xs...)]: written in place while the capacity suffices (the
    values [xs] are read before any cell is written, as memmove does),
    otherwise into a new array. The new array is taken to fit exactly; the
    runtime may round its capacity up, which no reslice below can observe. *)
Definition append (s : slice) (xs : list A) : slice :=
  let n := len s + length xs in
  if decide (n ≤ cap s)
  then Slice (take (len s) (arr s) ++ xs ++ drop n (arr s)) n
  else Slice (take (len s) (arr s) ++ xs) n.

(** A slice is well formed when its length is within its capacity. *)
Definition slice_wf (s : slice) : Prop := len s ≤ cap s.

End Slices.
Arguments slice A : clear implicits.

(** [for i, x := range l { body }] with a body that may panic; [i] is a Go
    int. *)
Fixpoint range_loop {S A} (body : S → Z → A → result S)
    (i : Z) (l : list A) (st : S) : result S :=
  match l with
  | [] => Ok st
  | x :: l' => st' ← body st i x; range_loop body (i + 1)%Z l' st'
  end.

(** [labelMap[v] = v] for every ignore label. *)
Definition mk_labelMap (ignoreLabels : list string) : gmap string string :=
  foldl (λ labelMap v, <[v:=v]> labelMap) ∅ ignoreLabels.

(** ** The affinity rewrite (hook.go, lines 291-362) *)

(** The terms of [required] while they are being edited: each requirement
    list is a slice that is resliced and appended to in place. *)
Record liveTerm := LiveTerm {
  liveExpressions : slice NodeSelectorRequirement;
  liveFields : slice NodeSelectorRequirement
}.

Definition live_of_term (t : NodeSelectorTerm) : liveTerm :=
  LiveTerm (mk_slice (MatchExpressions t)) (mk_slice (MatchFields t)).

Definition term_of_live (t : liveTerm) : NodeSelectorTerm :=
  mkTerm (elems (liveExpressions t)) (elems (liveFields t)).

(** [required.NodeSelectorTerms[termIdx]] *)
Definition index_term (live : list liveTerm) (termIdx : Z) : result liveTerm :=
  match live !! Z.to_nat termIdx with
  | Some t => Ok t
  | None => Panic "index out of range"
  end.

(** Body of the loop over [term.MatchExpressions] (lines 311-323); the
    state is (required.NodeSelectorTerms, mes, mesDeleteCount). *)
Definition expression_body (labelMap : gmap string string) (termIdx : Z)
    (st : list liveTerm * list NodeSelectorRequirement * Z)
    (meIdx : Z) (me : NodeSelectorRequirement)
    : result (list liveTerm * list NodeSelectorRequirement * Z) :=
  let '(live, mes, mesDeleteCount) := st in
  if decide (go_index labelMap (rKey me) ≠ "") then Ok st
  else
    t ← index_term live termIdx;
    lo ← slice_to (liveExpressions t) (meIdx - mesDeleteCount);
    hi ← slice_from (liveExpressions t) (meIdx - mesDeleteCount + 1);
    Ok (<[Z.to_nat termIdx := LiveTerm (append lo hi) (liveFields t)]> live,
        mes ++ [me], (mesDeleteCount + 1)%Z).

(** Body of the loop over [term.MatchFields] (lines 325-337); the state is
    (required.NodeSelectorTerms, mfs, mfsDeleteCount). The lower reslice
    (line 334) is offset by [mesDeleteCount], the count the previous loop
    ended with, the upper one (line 335) by [mfsDeleteCount]. *)
Definition field_body (labelMap : gmap string string) (termIdx : Z)
    (mesDeleteCount : Z)
    (st : list liveTerm * list NodeSelectorRequirement * Z)
    (mfIdx : Z) (mf : NodeSelectorRequirement)
    : result (list liveTerm * list NodeSelectorRequirement * Z) :=
  let '(live, mfs, mfsDeleteCount) := st in
  if decide (go_index labelMap (rKey mf) ≠ "") then Ok st
  else
    t ← index_term live termIdx;
    lo ← slice_to (liveFields t) (mfIdx - mesDeleteCount);
    hi ← slice_from (liveFields t) (mfIdx - mfsDeleteCount + 1);
    Ok (<[Z.to_nat termIdx := LiveTerm (liveExpressions t) (append lo hi)]> live,
        mfs ++ [mf], (mfsDeleteCount + 1)%Z).

(** Body of the loop over [requiredCopy.NodeSelectorTerms] (lines 308-341);
    the state is (required.NodeSelectorTerms, nodeSelectorTerm). *)
Definition term_body (labelMap : gmap string string)
    (st : list liveTerm * list NodeSelectorTerm)
    (termIdx : Z) (term : NodeSelectorTerm)
    : result (list liveTerm * list NodeSelectorTerm) :=
  let '(live, nodeSelectorTerm) := st in
  '(live, mes, mesDeleteCount) ←
    range_loop (expression_body labelMap termIdx) 0 (MatchExpressions term)
               (live, [], 0%Z);
  '(live, mfs, _) ←
    range_loop (field_body labelMap termIdx mesDeleteCount) 0 (MatchFields term)
               (live, [], 0%Z);
  if decide (length mfs ≠ 0 ∨ length mes ≠ 0)
  then Ok (live, nodeSelectorTerm ++ [mkTerm mes mfs])
  else Ok (live, nodeSelectorTerm).

(** Lines 343-349. *)
Definition filter_terms (live : list liveTerm) : list liveTerm :=
  foldl (λ filteredTerms term,
           if decide (len (liveFields term) = 0 ∧ len (liveExpressions term) = 0)
           then filteredTerms
           else filteredTerms ++ [term]) [] live.

(** [injectAffinity] edits the affinity it is given through the pointer and
    returns the backup: the result is the pair (affinity after the call,
    returned backup). [requiredCopy] is the value of [required] on entry. The
    pod reaches [inject] as a DeepCopy (line 114), so every requirement slice
    starts with its capacity equal to its length. *)
Definition injectAffinity (affinity : Affinity) (ignoreLabels : list string)
    : result (Affinity * option Affinity) :=
  let labelMap := mk_labelMap ignoreLabels in
  match aNodeAffinity affinity with
  | None => Ok (affinity, None)
  | Some nodeAffinity =>
    match RequiredDuringSchedulingIgnoredDuringExecution nodeAffinity with
    | None => Ok (affinity, None)
    | Some required =>
      let requiredCopy := required in
      '(live, nodeSelectorTerm) ←
        range_loop (term_body labelMap) 0 (NodeSelectorTerms requiredCopy)
                   (live_of_term <$> NodeSelectorTerms required, []);
      let filteredTerms := filter_terms live in
      let required :=
        if decide (length filteredTerms = 0) then None
        else Some (mkNodeSelector (term_of_live <$> filteredTerms)) in
      let affinity :=
        mkAffinity
          (Some (mkNodeAffinity required
                   (PreferredDuringSchedulingIgnoredDuringExecution nodeAffinity)))
          (aPodAffinity affinity) (aPodAntiAffinity affinity) in
      if decide (length nodeSelectorTerm = 0) then Ok (affinity, None)
      else Ok (affinity,
               Some (mkAffinity
                       (Some (mkNodeAffinity
                                (Some (mkNodeSelector nodeSelectorTerm)) []))
                       None None))
    end
  end.

(** ** The node-selector rewrite (hook.go, lines 270-289)

    The loop deletes from the map it ranges over, which Go allows; the
    result is the pair (nodeSelector after the call, returned map). The
    copy [nodeSelectorBackup] of lines 277-279 is never read. *)
Definition injectNodeSelector (nodeSelector : gmap string string)
    (ignoreLabels : list string) : gmap string string * gmap string string :=
  let labelMap := mk_labelMap ignoreLabels in
  map_fold (λ k v '(nodeSelector, finalNodeSelector),
              if decide (go_index labelMap k ≠ "")
              then (nodeSelector, finalNodeSelector)
              else (delete k nodeSelector, <[k:=v]> finalNodeSelector))
           (nodeSelector, ∅) nodeSelector.

(** ** The Constraint Rewriter (hook.go, lines 206-237 and 379-383) *)

(** util.ClustersNodeSelection, the record [inject] serializes into the
    backup annotation; its fields are the ones line 222 names. *)
Record ClustersNodeSelection := mkClustersNodeSelection {
  cnsNodeSelector : gmap string string;
  cnsAffinity : option Affinity;
  cnsTolerations : option (list Toleration)
}.

Definition skipInject (pod : Pod) : bool :=
  bool_decide (size (default ∅ (NodeSelector_ (Spec pod))) = 0)
  && bool_decide (Affinity_ (Spec pod) = None)
  && bool_decide (Tolerations (Spec pod) = None).

Section Inject.

Variables TaintNodeNotReady TaintNodeUnreachable : string.

(** util.SelectorKey, the annotation key of the backup. *)
Variable SelectorKey : string.

(** json.Marshal on a [ClustersNodeSelection]; [None] is its error. *)
Variable marshal : ClustersNodeSelection → option string.

(** The pod is edited through the pointer; the result is the pod after
    the call. *)
Definition inject (pod : Pod) (ignoreKeys : list string) : result Pod :=
  if skipInject pod then Ok pod
  else
    '(liveAffinity, affinity) ←
      match Affinity_ (Spec pod) with
      | Some a => '(a', backup) ← injectAffinity a ignoreKeys; Ok (Some a', backup)
      | None => Ok (None, None)
      end;
    let '(liveSelector, nodeSelector) :=
      match NodeSelector_ (Spec pod) with
      | Some m => let '(m', final) := injectNodeSelector m ignoreKeys in (Some m', final)
      | None => (None, ∅)
      end in
    let pod := set_Spec (set_NodeSelector liveSelector
                           (set_Affinity liveAffinity (Spec pod))) pod in
    let cns := mkClustersNodeSelection nodeSelector affinity (Tolerations (Spec pod)) in
    match marshal cns with
    | None => Ok pod
    | Some cnsByte =>
      let pod :=
        set_Annotations (Some (<[SelectorKey := cnsByte]> (default ∅ (Annotations pod)))) pod in
      Ok (set_Spec (set_Tolerations
                      (Some (getPodTolerations TaintNodeNotReady TaintNodeUnreachable pod))
                      (Spec pod)) pod)
    end.

(** The pod [inject] leaves when it does not return early, from the
    rewritten affinity and selector and the serialized backup. *)
Definition inject_result (pod : Pod) (liveAffinity : option Affinity)
    (liveSelector : option (gmap string string)) (cnsByte : option string) : Pod :=
  mkPod (Namespace pod) (Name pod) (Labels pod)
        (match cnsByte with
         | Some c => Some (<[SelectorKey := c]> (default ∅ (Annotations pod)))
         | None => Annotations pod
         end)
        (OwnerReferences pod)
        (mkPodSpec (NodeName (Spec pod)) liveSelector liveAffinity
                   (match cnsByte with
                    | Some _ => Some (getPodTolerations TaintNodeNotReady TaintNodeUnreachable pod)
                    | None => Tolerations (Spec pod)
                    end)
                   (Volumes (Spec pod))).

Definition rewrite_selector (pod : Pod) (ks : list string)
    : option (gmap string string) * gmap string string :=
  match NodeSelector_ (Spec pod) with
  | Some m => (Some (injectNodeSelector m ks).1, (injectNodeSelector m ks).2)
  | None => (None, ∅)
  end.

Definition rewrite_affinity (pod : Pod) (ks : list string)
    : result (option Affinity * option Affinity) :=
  match Affinity_ (Spec pod) with
  | Some a => '(a', backup) ← injectAffinity a ks; Ok (Some a', backup)
  | None => Ok (None, None)
  end.

(** "Running the Constraint Rewriter twice on an already-rewritten pod
    produces no further change: backup annotation and live constraints
    stabilize after one pass." *)
Definition inject_idempotent (pod : Pod) (ignoreKeys : list string) : Prop :=
  ∀ pod1 pod2,
    inject pod ignoreKeys = Ok pod1 → inject pod1 ignoreKeys = Ok pod2 →
    NodeSelector_ (Spec pod2) = NodeSelector_ (Spec pod1)
    ∧ Affinity_ (Spec pod2) = Affinity_ (Spec pod1)
    ∧ Tolerations (Spec pod2) = Tolerations (Spec pod1)
    ∧ index_map (Annotations pod2) SelectorKey = index_map (Annotations pod1) SelectorKey.

End Inject.

(** ** The Volume-Affinity Resolver (hook.go, lines 174-204) *)

(** webhookServer; [pvcLister ns name] is
    [pvcLister.PersistentVolumeClaims(ns).Get(name)], [None] when it returns
    an error. *)
Record webhookServer := mkWebhookServer {
  ignoreSelectorKeys : list string;
  pvcLister : string → string → option PersistentVolumeClaim_
}.

Section Resolver.

(** util.SelectedNodeKey *)
Variable SelectedNodeKey : string.

Definition getNodeNameFromPVC (whsvr : webhookServer) (ns pvcName : string) : string :=
  match pvcLister whsvr ns pvcName with
  | None => ""
  | Some pvc =>
    match pvcAnnotations pvc with
    | None => ""
    | Some annotations => go_index annotations SelectedNodeKey
    end
  end.

(** The loop of lines 179-190. The claims handed to the lister are
    logged, in order: the result is (claims looked up, pod after). *)
Fixpoint scan_volumes (whsvr : webhookServer) (pod : Pod) (volumes : list Volume)
    : list string * Pod :=
  match volumes with
  | [] => ([], pod)
  | volume :: rest =>
    match PersistentVolumeClaim volume with
    | None => scan_volumes whsvr pod rest
    | Some pvcSource =>
      let nodeName := getNodeNameFromPVC whsvr (Namespace pod) (ClaimName pvcSource) in
      if decide (String.length nodeName ≠ 0)
      then ([ClaimName pvcSource], set_Spec (set_NodeName nodeName (Spec pod)) pod)
      else
        let '(looked, pod') := scan_volumes whsvr pod rest in
        (ClaimName pvcSource :: looked, pod')
    end
  end.

Definition trySetNodeName_log (whsvr : webhookServer) (pod : Pod) : list string * Pod :=
  match Volumes (Spec pod) with
  | None => ([], pod)
  | Some volumes => scan_volumes whsvr pod volumes
  end.

Definition trySetNodeName (whsvr : webhookServer) (pod : Pod) : Pod :=
  (trySetNodeName_log whsvr pod).2.

End Resolver.

(** ** The Frozen-Node Registry *)

(** Modelled from the spec: util.NewUnschedulableCache and its methods
    [Add] and [GetFreezeNodes] are not among the sources. The design document
    (3 and 4.4) describes the registry as a mapping from owner identifier to
    a set of node names, [record(owner, node)] as an idempotent add of the
    node to the owner's set, and [freezeNodes(owner)] as a read that returns
    the empty set for an unknown owner. [mutate] below takes the registry as
    a parameter; this one serves in the examples. *)
Definition UnschedulableCache_Add (node ownerID : string)
    (cache : gmap string (gset string)) : gmap string (gset string) :=
  <[ownerID := {[node]} ∪ default ∅ (cache !! ownerID)]> cache.

Definition UnschedulableCache_GetFreezeNodes (ownerID : string)
    (cache : gmap string (gset string)) : list string :=
  elements (default ∅ (cache !! ownerID)).

(** ** The Admission Decision Engine (hook.go, lines 85-147 and 364-418) *)

(** v1beta1.AdmissionRequest, as far as [mutate] reads it. *)
Record AdmissionRequest := mkRequest {
  Kind : string;
  Operation : string;
  Raw : string
}.

Definition Create : string := "CREATE".
Definition Update : string := "UPDATE".

(** metav1.Status and v1beta1.AdmissionResponse. [Patch] is the byte
    string, empty when the Go slice is nil. *)
Record Status := mkStatus {
  Code : Z;
  Message : string
}.

Record AdmissionResponse := mkResponse {
  Allowed : bool;
  Result : option Status;
  Patch : string;
  PatchType : option string
}.

Definition PatchTypeJSONPatch : string := "JSONPatch".

(** A response that carries no patch. *)
Definition no_patch (r : AdmissionResponse) : Prop :=
  Patch r = "" ∧ PatchType r = None.

Definition getOwnerRef (pod : Pod) : string :=
  match OwnerReferences pod with
  | [] => ""
  | owner :: _ => UID owner
  end.

Section Mutate.

(** util.UnschedulableCache, from pkg/util: the state of the package-level
    [freezeCache] and its two methods, [freezeCache.Add(node, ownerID)] and
    [freezeCache.GetFreezeNodes(ownerID)]. The state is threaded through the
    functions that touch it. *)
Variable UnschedulableCache : Type.
Variable Add : string → string → UnschedulableCache → UnschedulableCache.
Variable GetFreezeNodes : string → UnschedulableCache → list string.

Variables TaintNodeNotReady TaintNodeUnreachable : string.
Variables SelectorKey SelectedNodeKey : string.

Definition setUnschedulableNodes (ref : string) (pod : Pod)
    (freezeCache : UnschedulableCache) : UnschedulableCache :=
  if decide (String.length ref = 0) then freezeCache
  else
    let node := match Annotations pod with
                | Some annotations => go_index annotations "unschedulable-node"
                | None => ""
                end in
    if decide (0 < String.length node)
    then Add node ref freezeCache
    else freezeCache.

Definition getUnschedulableNodes (ref : string) (pod : Pod)
    (freezeCache : UnschedulableCache) : list string :=
  if decide (String.length ref = 0) then []
  else if decide (String.length (NodeName (Spec pod)) ≠ 0) then []
  else GetFreezeNodes ref freezeCache.

(** util.CreatedbyDescheduler, the label key of the descheduler marker. *)
Variable CreatedbyDescheduler : string.

(** util.IsVirtualPod, from pkg/util: whether the pod carries the
    virtual-pod marker. *)
Variable IsVirtualPod : Pod → bool.

(** json.Unmarshal of the raw object into a pod; on the right its error
    message. *)
Variable unmarshal : string → Pod + string.

Variable marshal : ClustersNodeSelection → option string.

(** util.ReplacePodNodeNameNodeAffinity, from pkg/util, applied to the
    affinity, the owner and the frozen nodes (its other arguments are the
    constants [0] and [nil]); only the first of its two results is used. *)
Variable ReplacePodNodeNameNodeAffinity :
  option Affinity → string → list string → option Affinity.

(** util.CreateJSONPatch, from pkg/util: the patch bytes and the error. *)
Variable CreateJSONPatch : Pod → Pod → string * option string.

Definition shouldSkip (pod : Pod) : bool :=
  if decide (Namespace pod = "kube-system") then true
  else
    match Labels pod with
    | Some labels =>
      if decide (go_index labels CreatedbyDescheduler = "true") then true
      else if negb (IsVirtualPod pod) then true
      else false
    | None => false
    end.

(** [mutate] returns the response and leaves the registry in a new state;
    a panic inside [inject] leaves the request without a response. *)
Definition mutate (whsvr : webhookServer) (req : AdmissionRequest)
    (freezeCache : UnschedulableCache)
    : result (AdmissionResponse * UnschedulableCache) :=
  if decide (Kind req = "Pod") then
    match unmarshal (Raw req) with
    | inr err =>
      Ok (mkResponse false (Some (mkStatus 0 err)) "" None, freezeCache)
    | inl pod =>
      if shouldSkip pod then Ok (mkResponse true None "" None, freezeCache)
      else
        let ref := getOwnerRef pod in
        let clone := pod in
        if decide (Operation req = Update) then
          Ok (mkResponse true None "" None,
              setUnschedulableNodes ref clone freezeCache)
        else
          let clone :=
            if decide (Operation req = Create) then
              let nodes := getUnschedulableNodes ref clone freezeCache in
              if decide (0 < length nodes)
              then set_Spec (set_Affinity
                               (ReplacePodNodeNameNodeAffinity
                                  (Affinity_ (Spec clone)) ref nodes)
                               (Spec clone)) clone
              else clone
            else clone in
          let clone := trySetNodeName SelectedNodeKey whsvr clone in
          clone ← inject TaintNodeNotReady TaintNodeUnreachable SelectorKey marshal
                    clone (ignoreSelectorKeys whsvr);
          let '(patch, err) := CreateJSONPatch pod clone in
          let result := match err with
                        | Some msg => mkStatus 403 msg
                        | None => mkStatus 0 ""
                        end in
          Ok (mkResponse true (Some result) patch (Some PatchTypeJSONPatch),
              freezeCache)
    end
  else Ok (mkResponse false None "" None, freezeCache).


(** "Only a fundamentally unrecognized resource kind produces a denial." *)
Definition denies_as_worded : Prop :=
  ∀ whsvr req freezeCache resp freezeCache',
    mutate whsvr req freezeCache = Ok (resp, freezeCache') →
    (Allowed resp = false ↔ Kind req ≠ "Pod").

End Mutate.

(** The keys the rewrite leaves alone: [labelMap[k] != ""] holds for the
    entries of the ignore list other than the empty string. *)
Definition ignored (ignoreLabels : list string) (k : string) : Prop :=
  k ∈ ignoreLabels ∧ k ≠ "".

#[global] Instance ignored_dec ignoreLabels k : Decision (ignored ignoreLabels k).
Proof. unfold ignored. apply _. Defined.

(** ** Statements of the design document that the code does not meet,
    as they are worded *)

(** "After rewriting, a pod's toleration list contains exactly one entry per
    table key, either the caller's original toleration for that key or the
    injected default." *)
Definition exactly_one_per_key (TaintNodeNotReady TaintNodeUnreachable : string)
    (pod : Pod) : Prop :=
  ∀ k, k = TaintNodeNotReady ∨ k = TaintNodeUnreachable →
    ∃ t, filter (λ t, Key t = k)
           (getPodTolerations TaintNodeNotReady TaintNodeUnreachable pod) = [t]
         ∧ (t ∈ range_of (Tolerations (Spec pod)) ∨ t = canonical k).

(** "The live selector after rewrite equals S ∩ I (by key) and the backup
    payload's selector equals S \ I." *)
Definition selector_partition (S : gmap string string) (I : list string) : Prop :=
  injectNodeSelector S I =
    (filter (λ kv, kv.1 ∈ I) S, filter (λ kv, kv.1 ∉ I) S).

(** *** The affinity rewrite as the design document words it

    Each term loses the match-expressions and match-fields whose key is not
    ignored; the removed items form the backup term; terms left empty are
    dropped, on both sides, and the required affinity is cleared when no term
    is left. *)

Definition term_empty (t : NodeSelectorTerm) : Prop :=
  MatchFields t = [] ∧ MatchExpressions t = [].

#[global] Instance term_empty_dec t : Decision (term_empty t).
Proof. unfold term_empty. apply _. Defined.

Definition strip_term (I : list string) (t : NodeSelectorTerm) : NodeSelectorTerm :=
  mkTerm (filter (λ r, ignored I (rKey r)) (MatchExpressions t))
         (filter (λ r, ignored I (rKey r)) (MatchFields t)).

Definition extract_term (I : list string) (t : NodeSelectorTerm) : NodeSelectorTerm :=
  mkTerm (filter (λ r, ¬ ignored I (rKey r)) (MatchExpressions t))
         (filter (λ r, ¬ ignored I (rKey r)) (MatchFields t)).

Definition nonempty_terms (ts : list NodeSelectorTerm) : list NodeSelectorTerm :=
  filter (λ t, ¬ term_empty t) ts.

Definition selector_of (ts : list NodeSelectorTerm) : option NodeSelector :=
  match ts with
  | [] => None
  | _ => Some (mkNodeSelector ts)
  end.

Definition affinity_rewrite (affinity : Affinity) (I : list string)
    : Affinity * option Affinity :=
  match aNodeAffinity affinity with
  | None => (affinity, None)
  | Some nodeAffinity =>
    match RequiredDuringSchedulingIgnoredDuringExecution nodeAffinity with
    | None => (affinity, None)
    | Some required =>
      (mkAffinity
         (Some (mkNodeAffinity
                  (selector_of (nonempty_terms (strip_term I <$> NodeSelectorTerms required)))
                  (PreferredDuringSchedulingIgnoredDuringExecution nodeAffinity)))
         (aPodAffinity affinity) (aPodAntiAffinity affinity),
       match nonempty_terms (extract_term I <$> NodeSelectorTerms required) with
       | [] => None
       | ts => Some (mkAffinity
                       (Some (mkNodeAffinity (Some (mkNodeSelector ts)) []))
                       None None)
       end)
    end
  end.

(** The required terms of an affinity, none when there is no required
    node affinity. *)
Definition required_terms (affinity : Affinity) : list NodeSelectorTerm :=
  match aNodeAffinity affinity with
  | Some nodeAffinity =>
    match RequiredDuringSchedulingIgnoredDuringExecution nodeAffinity with
    | Some required => NodeSelectorTerms required
    | None => []
    end
  | None => []
  end.

(** No required term carries match-fields. *)
Definition no_match_fields (affinity : Affinity) : Prop :=
  Forall (λ t, MatchFields t = []) (required_terms affinity).

(** *** The resolver, as the design document words it and as it scans *)

Definition claim_of (v : Volume) : option string :=
  ClaimName <$> PersistentVolumeClaim v.

(** The node a volume's claim is bound to, the empty string when the volume
    has no claim source or the lookup finds nothing. *)
Definition selected_node (SelectedNodeKey : string) (whsvr : webhookServer)
    (ns : string) (v : Volume) : string :=
  match PersistentVolumeClaim v with
  | Some pvcSource => getNodeNameFromPVC SelectedNodeKey whsvr ns (ClaimName pvcSource)
  | None => ""
  end.

(** "First match wins, remaining volumes not consulted" with the match
    being the first volume that has a claim source: only that claim is looked
    up, and a failed lookup leaves the node name as it was. *)
Definition first_claim_decides (SelectedNodeKey : string) (whsvr : webhookServer)
    (pod : Pod) : Prop :=
  ∀ volumes, Volumes (Spec pod) = Some volumes →
    match omap PersistentVolumeClaim volumes with
    | pvcSource :: _ =>
      let nodeName :=
        getNodeNameFromPVC SelectedNodeKey whsvr (Namespace pod) (ClaimName pvcSource) in
      trySetNodeName_log SelectedNodeKey whsvr pod =
        ([ClaimName pvcSource],
         if decide (nodeName = "") then pod
         else set_Spec (set_NodeName nodeName (Spec pod)) pod)
    | [] => trySetNodeName_log SelectedNodeKey whsvr pod = ([], pod)
    end.

(** No required term of the pod's affinity carries match-fields. *)
Definition no_match_fields_pod (pod : Pod) : Prop :=
  match Affinity_ (Spec pod) with
  | Some a => no_match_fields a
  | None => True
  end.


(** A term that makes the match-field loop reslice below zero: its first
    match-field to be removed stands at an index smaller than the number of
    match-expressions removed before. *)
Definition crashing_term (I : list string) (t : NodeSelectorTerm) : Prop :=
  ∃ pre f post,
    MatchFields t = pre ++ f :: post
    ∧ Forall (λ r, ignored I (rKey r)) pre
    ∧ ¬ ignored I (rKey f)
    ∧ length pre < length (filter (λ r, ¬ ignored I (rKey r)) (MatchExpressions t)).

(** The backup the design asks for: per required term the requirements
    whose key is not ignored, terms with none of them left out. *)
Definition affinity_backup (I : list string) (a : Affinity) : option Affinity :=
  match nonempty_terms (extract_term I <$> required_terms a) with
  | [] => None
  | ts => Some (mkAffinity (Some (mkNodeAffinity (Some (mkNodeSelector ts)) []))
                           None None)
  end.


(** Pods on which the affinity rewrite crashes. *)
Definition crashing_pod (ks : list string) (pod : Pod) : Prop :=
  ∃ a, Affinity_ (Spec pod) = Some a ∧ Exists (crashing_term ks) (required_terms a).

(** Terms in which the rewrite has match-expressions to remove or
    match-fields to remove, not both. *)
Definition one_kind_term (I : list string) (t : NodeSelectorTerm) : Prop :=
  length (filter (λ r, ¬ ignored I (rKey r)) (MatchExpressions t)) = 0
  ∨ length (filter (λ r, ¬ ignored I (rKey r)) (MatchFields t)) = 0.

(** What the code leaves of a term that has at most one match-field to
    remove: the match-expressions with an ignored key and, of the
    match-fields, all but the removed one and the [m] entries before it,
    [m] being the number of match-expressions removed from the term. *)
Definition cut_fields (I : list string) (m : nat)
    (fields : list NodeSelectorRequirement) : list NodeSelectorRequirement :=
  match list_find (λ r, ¬ ignored I (rKey r)) fields with
  | Some (i, _) => take (i - m) fields ++ drop (S i) fields
  | None => fields
  end.

Definition cut_term (I : list string) (t : NodeSelectorTerm) : NodeSelectorTerm :=
  mkTerm (filter (λ r, ignored I (rKey r)) (MatchExpressions t))
         (cut_fields I (length (filter (λ r, ¬ ignored I (rKey r)) (MatchExpressions t)))
                     (MatchFields t)).

(** Terms with at most one match-field to remove, which comes after at
    least as many match-fields as the term has match-expressions to remove. *)
Definition one_removal_term (I : list string) (t : NodeSelectorTerm) : Prop :=
  match list_find (λ r, ¬ ignored I (rKey r)) (MatchFields t) with
  | Some (i, _) =>
    length (filter (λ r, ¬ ignored I (rKey r)) (MatchExpressions t)) ≤ i
    ∧ length (filter (λ r, ¬ ignored I (rKey r)) (MatchFields t)) = 1
  | None => True
  end.


(** Terms on which the rewrite does not panic, and pods with such terms
    only. *)
Definition returning_term (I : list string) (t : NodeSelectorTerm) : Prop :=
  one_kind_term I t ∨ one_removal_term I t.

Definition returning_pod (ks : list string) (pod : Pod) : Prop :=
  ∀ a, Affinity_ (Spec pod) = Some a → Forall (returning_term ks) (required_terms a).

(** ** Sample inputs *)

(** Sample values for the constants of pkg/util; the properties below
    hold for any values, the two taint keys being distinct where that is
    asked for. *)
Definition sample_TaintNodeNotReady : string := "node.kubernetes.io/not-ready".
Definition sample_TaintNodeUnreachable : string := "node.kubernetes.io/unreachable".
Definition sample_SelectorKey : string := "clusterSelector".
Definition sample_SelectedNodeKey : string := "volume.kubernetes.io/selected-node".
Definition sample_CreatedbyDescheduler : string := "create-by-descheduler".
Definition sample_VirtualPodLabel : string := "virtual-pod".

Definition pod_with (labels : option (gmap string string)) (spec : PodSpec) : Pod :=
  mkPod "default" "web-0" labels None [] spec.

(** A pod that tolerates the not-ready taint twice, in its own way. *)
Definition pod_twice_not_ready : Pod :=
  pod_with None
    (mkPodSpec "" None None
       (Some [mkToleration sample_TaintNodeNotReady TolerationOpEqual "x"
                           TaintEffectNoSchedule None;
              mkToleration sample_TaintNodeNotReady TolerationOpExists ""
                           TaintEffectNoExecute (Some 300%Z)])
       None).

(** The selector of the design document's example and a selector with an
    empty key. *)
Definition selector_zone_gpu : gmap string string :=
  {[ "zone" := "a"; "gpu" := "true" ]}.

Definition selector_empty_key : gmap string string := {[ "" := "x" ]}.

Definition requirement_on (k : string) : NodeSelectorRequirement :=
  mkRequirement k "In" ["v"].

Definition required_affinity (terms : list NodeSelectorTerm) : Affinity :=
  mkAffinity (Some (mkNodeAffinity (Some (mkNodeSelector terms)) [])) None None.

(** One term with two match-fields, and one term with a match-expression
    and a match-field. *)
Definition field_in_node_1 : NodeSelectorRequirement :=
  mkRequirement "metadata.name" "In" ["node-1"].

Definition field_not_in_node_2 : NodeSelectorRequirement :=
  mkRequirement "metadata.name" "NotIn" ["node-2"].

Definition affinity_two_fields : Affinity :=
  required_affinity [mkTerm [] [field_in_node_1; field_not_in_node_2]].

Definition affinity_expression_and_field : Affinity :=
  required_affinity [mkTerm [requirement_on "zone"] [field_in_node_1]].

(** A lister that knows one claim, bound to node-3, and a pod whose first
    claim is unknown to it. *)
Definition lister_one_bound (ns name : string) : option PersistentVolumeClaim_ :=
  if decide (ns = "default" ∧ name = "bound")
  then Some (mkPVC (Some {[ sample_SelectedNodeKey := "node-3" ]}))
  else None.

Definition server_one_bound : webhookServer := mkWebhookServer [] lister_one_bound.

Definition pod_two_claims : Pod :=
  pod_with None
    (mkPodSpec "" None None None
       (Some [mkVolume "scratch" None;
              mkVolume "data-a" (Some (mkPVCSource "missing" false));
              mkVolume "data-b" (Some (mkPVCSource "bound" false));
              mkVolume "data-c" (Some (mkPVCSource "other" false))])).

(** Modelled from the spec: util.IsVirtualPod is not among the sources. The
    design document (4.1, step 3) speaks of a pod that carries the overlay's
    virtual-pod marker, next to the descheduler label that is tested against
    "true"; a pod carries the marker when its label map holds the marker key
    with that value, and a pod without labels carries no marker. *)
Definition IsVirtualPod_labelled (VirtualPodLabel : string) (pod : Pod) : bool :=
  match Labels pod with
  | Some labels => bool_decide (labels !! VirtualPodLabel = Some "true")
  | None => false
  end.

(** Stand-ins for the collaborators in the examples. [decode_as pod]
    rejects the empty input with the message of json.Unmarshal and decodes
    every other input to [pod]; [render] writes out the selector pairs,
    whether a backup affinity is present, and the toleration keys, so that,
    like json.Marshal, it tells different payloads of the examples apart. *)
Definition decode_as (pod : Pod) (raw : string) : Pod + string :=
  if decide (raw = "") then inr "unexpected end of JSON input" else inl pod.

Definition render (cns : ClustersNodeSelection) : option string :=
  Some ("{nodeSelector:"
        +:+ foldr (λ kv acc, kv.1 +:+ "=" +:+ kv.2 +:+ ";" +:+ acc) ""
              (map_to_list (cnsNodeSelector cns))
        +:+ " affinity:" +:+ match cnsAffinity cns with Some _ => "set" | None => "nil" end
        +:+ " tolerations:"
        +:+ foldr (λ t acc, Key t +:+ ";" +:+ acc) "" (range_of (cnsTolerations cns))
        +:+ "}").

Definition keep_affinity (affinity : option Affinity) (ref : string)
    (nodes : list string) : option Affinity := affinity.

Definition empty_patch (before after : Pod) : string * option string := ("[]", None).

Definition sample_inject : Pod → list string → result Pod :=
  inject sample_TaintNodeNotReady sample_TaintNodeUnreachable sample_SelectorKey render.

Definition sample_mutate (pod : Pod)
    : webhookServer → AdmissionRequest → gmap string (gset string)
      → result (AdmissionResponse * gmap string (gset string)) :=
  mutate (gmap string (gset string))
         UnschedulableCache_Add UnschedulableCache_GetFreezeNodes
         sample_TaintNodeNotReady sample_TaintNodeUnreachable
         sample_SelectorKey sample_SelectedNodeKey sample_CreatedbyDescheduler
         (IsVirtualPod_labelled sample_VirtualPodLabel) (decode_as pod)
         render keep_affinity empty_patch.

Definition server_plain : webhookServer := mkWebhookServer [] (λ _ _, None).

(** A pod without labels that asks for a zone, and requests for it. *)
Definition pod_unlabelled : Pod :=
  pod_with None (mkPodSpec "" (Some {[ "zone" := "a" ]}) None None None).

Definition request (operation raw : string) : AdmissionRequest :=
  mkRequest "Pod" operation raw.

(** A virtual pod of owner u1 that reports node-7 as unschedulable. *)
Definition pod_reporting : Pod :=
  mkPod "default" "web-1" (Some {[ sample_VirtualPodLabel := "true" ]})
        (Some {[ "unschedulable-node" := "node-7" ]})
        [mkOwnerReference "u1"]
        (mkPodSpec "" None None None None).


(** A pod with a zone requirement, to be stripped, and a pod anti-affinity. *)
Definition pod_anti_affine : Pod :=
  pod_with None
    (mkPodSpec "" None
       (Some (mkAffinity
                (Some (mkNodeAffinity
                         (Some (mkNodeSelector [mkTerm [requirement_on "zone"] []]))
                         [mkPreferred 10 (mkTerm [requirement_on "disk"] [])]))
                None
                (Some (mkPodAntiAffinity
                         [mkPodAffinityTerm (Some {[ "app" := "web" ]}) []
                                            "kubernetes.io/hostname"] []))))
       None None).

(** The pod of the design document's example: it asks for a zone and a gpu. *)
Definition pod_zone_gpu : Pod :=
  pod_with None (mkPodSpec "" (Some selector_zone_gpu) None None None).

(** A term with a single match-field, and pods with the affinities
    above. *)
Definition affinity_one_field : Affinity :=
  required_affinity [mkTerm [] [field_in_node_1]].


Definition pod_one_field : Pod :=
  pod_with None (mkPodSpec "" None (Some affinity_one_field) None None).

Definition pod_expression_and_field : Pod :=
  pod_with None (mkPodSpec "" None (Some affinity_expression_and_field) None None).

(** A new pod of owner u1, not yet placed. *)
Definition pod_of_u1 : Pod :=
  mkPod "default" "web-2" (Some {[ sample_VirtualPodLabel := "true" ]}) None
        [mkOwnerReference "u1"]
        (mkPodSpec "" None None None None).

(** * Properties *)

(** ** Toleration normalization *)

Section TolerationFacts.

Variables TaintNodeNotReady TaintNodeUnreachable : string.

Local Abbreviation desiredMap := (desiredMap TaintNodeNotReady TaintNodeUnreachable).
Local Abbreviation well_known := (well_known TaintNodeNotReady TaintNodeUnreachable).
Local Abbreviation substitute := (substitute TaintNodeNotReady TaintNodeUnreachable).
Local Abbreviation normalized := (normalized TaintNodeNotReady TaintNodeUnreachable).
Local Abbreviation toleration_step := (toleration_step TaintNodeNotReady TaintNodeUnreachable).
Local Abbreviation getPodTolerations := (getPodTolerations TaintNodeNotReady TaintNodeUnreachable).

Lemma desiredMap_lookup k :
  desiredMap !! k = if well_known k then Some (canonical k) else None.
Proof.
  unfold desiredMap, well_known.
  destruct (decide (k = TaintNodeNotReady)) as [->|Hn].
  - rewrite bool_decide_eq_true_2 by done. by rewrite lookup_insert_eq.
  - rewrite (bool_decide_eq_false_2 _ Hn). rewrite lookup_insert_ne by done.
    destruct (decide (k = TaintNodeUnreachable)) as [->|Hu].
    + rewrite bool_decide_eq_true_2 by done. by rewrite lookup_singleton_eq.
    + rewrite (bool_decide_eq_false_2 _ Hu). by rewrite lookup_singleton_ne.
Qed.

Lemma desiredMap_index_NotReady :
  desiredMap !!! TaintNodeNotReady = canonical TaintNodeNotReady.
Proof.
  unfold lookup_total, map_lookup_total. rewrite desiredMap_lookup.
  unfold well_known. by rewrite bool_decide_eq_true_2.
Qed.

Lemma desiredMap_index_Unreachable :
  desiredMap !!! TaintNodeUnreachable = canonical TaintNodeUnreachable.
Proof.
  unfold lookup_total, map_lookup_total. rewrite desiredMap_lookup.
  unfold well_known. rewrite (bool_decide_eq_true_2 (_ = TaintNodeUnreachable)) by done.
  by rewrite orb_true_r.
Qed.

Lemma toleration_step_eq acc nr us t :
  toleration_step (acc, nr, us) t =
    (acc ++ [substitute t],
     nr || bool_decide (Key t = TaintNodeNotReady),
     us || bool_decide (Key t = TaintNodeUnreachable)).
Proof.
  unfold toleration_step, substitute.
  unfold lookup_total, map_lookup_total. rewrite desiredMap_lookup.
  unfold well_known.
  destruct (decide (Key t = TaintNodeNotReady)) as [Hn|Hn];
    destruct (decide (Key t = TaintNodeUnreachable)) as [Hu|Hu];
    rewrite ?(bool_decide_eq_true_2 _ Hn), ?(bool_decide_eq_false_2 _ Hn),
            ?(bool_decide_eq_true_2 _ Hu), ?(bool_decide_eq_false_2 _ Hu);
    simpl; rewrite ?orb_true_r, ?orb_false_r; reflexivity.
Qed.

Lemma toleration_loop l : ∀ acc nr us,
  foldl toleration_step (acc, nr, us) l =
    (acc ++ (substitute <$> l),
     nr || seen TaintNodeNotReady l,
     us || seen TaintNodeUnreachable l).
Proof.
  induction l as [|t l IH]; intros acc nr us; cbn [foldl fmap list_fmap seen existsb].
  - by rewrite app_nil_r, !orb_false_r.
  - rewrite toleration_step_eq, IH, <- app_assoc, !orb_assoc. reflexivity.
Qed.

Lemma getPodTolerations_eq pod :
  getPodTolerations pod = normalized (range_of (Tolerations (Spec pod))).
Proof.
  unfold getPodTolerations.
  rewrite toleration_loop. simpl.
  unfold addDefaultPodTolerations, normalized.
  rewrite desiredMap_index_NotReady, desiredMap_index_Unreachable.
  destruct (seen TaintNodeNotReady _), (seen TaintNodeUnreachable _); simpl;
    rewrite <- ?app_assoc, ?app_nil_r; reflexivity.
Qed.

(** C6: the loop of [getPodTolerations] followed by
    [addDefaultPodTolerations] walks the list once, in order: an entry with
    one of the two well-known keys is replaced, in its place, by the
    canonical default for its key (whatever its operator and effect were),
    every other entry is passed through unchanged in its position, and the
    defaults of the keys not seen are appended at the end, not-ready before
    unreachable. *)
Theorem getPodTolerations_normalized pod :
  let l := range_of (Tolerations (Spec pod)) in
  getPodTolerations pod =
    (substitute <$> l)
      ++ (if seen TaintNodeNotReady l then [] else [canonical TaintNodeNotReady])
      ++ (if seen TaintNodeUnreachable l then [] else [canonical TaintNodeUnreachable])
  ∧ (∀ i t, l !! i = Some t →
       getPodTolerations pod !! i =
         Some (if bool_decide (Key t = TaintNodeNotReady)
                  || bool_decide (Key t = TaintNodeUnreachable)
               then mkToleration (Key t) TolerationOpExists "" TaintEffectNoExecute None
               else t)).
Proof.
  intros l. rewrite getPodTolerations_eq. fold l. split; [reflexivity|].
  intros i t Hi. unfold normalized. rewrite lookup_app_l.
  - rewrite list_lookup_fmap, Hi. reflexivity.
  - rewrite length_fmap. by eapply lookup_lt_Some.
Qed.

Lemma Key_substitute t : Key (substitute t) = Key t.
Proof. unfold substitute. by destruct (well_known _). Qed.

Lemma count_key_app k (l1 l2 : list Toleration) :
  count_key k (l1 ++ l2) = count_key k l1 + count_key k l2.
Proof. unfold count_key. by rewrite filter_app, length_app. Qed.

Lemma count_key_substitute k l :
  count_key k (substitute <$> l) = count_key k l.
Proof.
  unfold count_key. induction l as [|t l IH]; [done|].
  rewrite fmap_cons, !filter_cons, Key_substitute.
  destruct (decide (Key t = k)); simpl; by rewrite IH.
Qed.

Lemma seen_count k l : seen k l = negb (bool_decide (count_key k l = 0)).
Proof.
  unfold count_key, seen. induction l as [|t l IH]; [done|].
  cbn [existsb]. rewrite filter_cons.
  destruct (decide (Key t = k)) as [H|H].
  - by rewrite (bool_decide_eq_true_2 _ H).
  - by rewrite (bool_decide_eq_false_2 _ H).
Qed.

Lemma count_key_default k k' (b : bool) :
  count_key k (if b then [] else [canonical k']) =
    if b then 0 else if decide (k' = k) then 1 else 0.
Proof.
  destruct b; [done|]. unfold count_key. rewrite filter_cons. simpl.
  by destruct (decide (k' = k)).
Qed.

Lemma normalized_entry t l :
  t ∈ normalized l → well_known (Key t) = true → t = canonical (Key t).
Proof.
  unfold normalized. rewrite !elem_of_app. intros [Hin|[Hin|Hin]] Hk.
  - apply list_elem_of_fmap in Hin as (t0 & -> & _).
    rewrite Key_substitute in Hk |- *. unfold substitute. by rewrite Hk.
  - destruct (seen TaintNodeNotReady l); [by apply elem_of_nil in Hin|].
    by apply list_elem_of_singleton in Hin as ->.
  - destruct (seen TaintNodeUnreachable l); [by apply elem_of_nil in Hin|].
    by apply list_elem_of_singleton in Hin as ->.
Qed.

(** C2, as the code has it: for each of the two well-known keys the list
    returned by [getPodTolerations] holds as many entries with that key as
    the pod's list did, and one when the pod had none (so exactly one when
    the pod had at most one); each of them is the canonical default for the
    key, which replaces the caller's own toleration. *)
Theorem getPodTolerations_per_key pod k :
  TaintNodeNotReady ≠ TaintNodeUnreachable →
  k = TaintNodeNotReady ∨ k = TaintNodeUnreachable →
  count_key k (getPodTolerations pod)
    = Nat.max 1 (count_key k (range_of (Tolerations (Spec pod))))
  ∧ ∀ t, t ∈ getPodTolerations pod → Key t = k → t = canonical k.
Proof.
  intros Hne Hk. rewrite getPodTolerations_eq.
  set (l := range_of (Tolerations (Spec pod))). split.
  - unfold normalized.
    rewrite !count_key_app, count_key_substitute, !count_key_default, !seen_count.
    destruct Hk as [->| ->].
    + rewrite decide_True by done. rewrite decide_False by done.
      destruct (decide (count_key TaintNodeNotReady l = 0)) as [H0|H0].
      * rewrite (bool_decide_eq_true_2 _ H0). simpl.
        destruct (negb _); lia.
      * rewrite (bool_decide_eq_false_2 _ H0). simpl.
        destruct (negb _); lia.
    + rewrite (decide_False (P := TaintNodeNotReady = TaintNodeUnreachable)) by done.
      rewrite decide_True by done.
      destruct (decide (count_key TaintNodeUnreachable l = 0)) as [H0|H0].
      * rewrite (bool_decide_eq_true_2 _ H0). simpl.
        destruct (negb _); lia.
      * rewrite (bool_decide_eq_false_2 _ H0). simpl.
        destruct (negb _); lia.
  - intros t Hin <-. apply (normalized_entry _ _ Hin).
    unfold well_known.
    destruct Hk as [->| ->].
    + by rewrite bool_decide_eq_true_2.
    + rewrite (bool_decide_eq_true_2 (_ = TaintNodeUnreachable)) by done.
      by rewrite orb_true_r.
Qed.

End TolerationFacts.

(** [getPodTolerations_per_key] at the not-ready key of a pod that
    tolerates it twice. *)
Lemma getPodTolerations_per_key_witness :
  sample_TaintNodeNotReady ≠ sample_TaintNodeUnreachable
  ∧ count_key sample_TaintNodeNotReady
      (getPodTolerations sample_TaintNodeNotReady sample_TaintNodeUnreachable
         pod_twice_not_ready) = Nat.max 1 2.
Proof.
  split; [discriminate|].
  apply (getPodTolerations_per_key sample_TaintNodeNotReady
           sample_TaintNodeUnreachable pod_twice_not_ready
           sample_TaintNodeNotReady); [discriminate | by left].
Defined.

(** C2 as the design document words it fails on a pod whose list names the
    not-ready key twice: both entries are rewritten and both stay. *)
Lemma exactly_one_per_key_fails :
  ¬ exactly_one_per_key sample_TaintNodeNotReady sample_TaintNodeUnreachable
      pod_twice_not_ready.
Proof.
  intros H. destruct (H sample_TaintNodeNotReady) as (t & Hf & _); [by left|].
  vm_compute in Hf. discriminate Hf.
Qed.

(** ** The node-selector rewrite *)

Lemma labelMap_loop (ignoreLabels : list string) : ∀ (m : gmap string string) k,
  foldl (λ labelMap v, <[v:=v]> labelMap) m ignoreLabels !! k =
    if decide (k ∈ ignoreLabels) then Some k else m !! k.
Proof.
  induction ignoreLabels as [|v l IH]; intros m k; cbn [foldl].
  - rewrite decide_False; [done | apply not_elem_of_nil].
  - rewrite IH. destruct (decide (k ∈ l)) as [Hl|Hl].
    + rewrite decide_True; [done | by right].
    + destruct (decide (k = v)) as [->|Hv].
      * rewrite lookup_insert_eq, decide_True; [done | by left].
      * rewrite lookup_insert_ne by done.
        rewrite decide_False; [done|]. by intros [?|?]%elem_of_cons.
Qed.

(** The test [labelMap[k] != ""] of lines 282, 312 and 326. *)
Lemma labelMap_test ignoreLabels k :
  go_index (mk_labelMap ignoreLabels) k ≠ "" ↔ ignored ignoreLabels k.
Proof.
  unfold go_index, mk_labelMap, ignored. rewrite labelMap_loop, lookup_empty.
  destruct (decide (k ∈ ignoreLabels)); simpl; [tauto|].
  split; [by intros Hne | by intros [? _]].
Qed.

Lemma selector_loop (keep : string → Prop) `{∀ k, Decision (keep k)}
    (live0 : gmap string string) : ∀ m : gmap string string,
  let r := map_fold (λ k v '(nodeSelector, finalNodeSelector),
                       if decide (keep k)
                       then (nodeSelector, finalNodeSelector)
                       else (delete k nodeSelector, <[k:=v]> finalNodeSelector))
                    (live0, (∅ : gmap string string)) m in
  ∀ k, r.1 !! k = (if decide (is_Some (m !! k) ∧ ¬ keep k) then None else live0 !! k)
       ∧ r.2 !! k = (if decide (keep k) then None else m !! k).
Proof.
  apply (map_fold_weak_ind (λ r (m : gmap string string), ∀ k,
    r.1 !! k = (if decide (is_Some (m !! k) ∧ ¬ keep k) then None else live0 !! k)
    ∧ r.2 !! k = (if decide (keep k) then None else m !! k))).
  - intros k. simpl. rewrite !lookup_empty. split.
    + rewrite decide_False; [done|]. intros [[? ?] _]. done.
    + by destruct (decide (keep k)).
  - intros i x m [live final] Hi IH k. destruct (IH k) as [IH1 IH2]. simpl in *.
    destruct (decide (keep i)) as [Hk|Hk]; simpl;
      (destruct (decide (k = i)) as [->|Hne];
       [rewrite ?lookup_delete_eq, ?lookup_insert_eq, ?IH1, ?IH2, ?Hi
       |rewrite ?lookup_delete_ne, ?lookup_insert_ne by done; done]);
      split; repeat case_decide; try done;
      assert (is_Some (Some x)) by (by eexists);
      assert (¬ is_Some (@None string)) by (by intros [? ?]);
      exfalso; tauto.
Qed.

Lemma injectNodeSelector_filter (S : gmap string string) (I : list string) :
  injectNodeSelector S I =
    (filter (λ kv, ignored I kv.1) S, filter (λ kv, ¬ ignored I kv.1) S).
Proof.
  unfold injectNodeSelector.
  pose proof (selector_loop (λ k, go_index (mk_labelMap I) k ≠ "") S S) as H.
  simpl in H. destruct (map_fold _ _ _) as [live final]. simpl in H.
  f_equal; apply map_eq; intros k; destruct (H k) as [H1 H2].
  - rewrite H1. apply option_eq; intros v.
    rewrite map_lookup_filter_Some. simpl. rewrite <- labelMap_test.
    destruct (decide (_ ∧ _)) as [[_ Hd]|Hd].
    + split; [done | by intros [_ ?]].
    + split; [|by intros [? _]]. intros Hv. split; [done|].
      intros Heq. apply Hd. split; [by eexists|]. by intros Hc.
  - rewrite H2. apply option_eq; intros v.
    rewrite map_lookup_filter_Some. simpl. rewrite <- labelMap_test.
    destruct (decide (go_index (mk_labelMap I) k ≠ "")) as [Hd|Hd].
    + split; [done|]. intros [_ Hn]. by destruct Hn.
    + split; [|by intros [? _]]. by intros Hv.
Qed.

(** What the code computes, for every selector and ignore list: the node
    selector after the rewrite is the restriction of S to the non-empty keys
    of the ignore list, the returned backup is the restriction of S to all
    other keys, and every key-value pair of S is in exactly one of the
    two. *)
Lemma injectNodeSelector_partition (S : gmap string string) (I : list string) :
  injectNodeSelector S I =
    (filter (λ kv, kv.1 ∈ I ∧ kv.1 ≠ "") S,
     filter (λ kv, ¬ (kv.1 ∈ I ∧ kv.1 ≠ "")) S)
  ∧ ∀ k v, S !! k = Some v →
      ((injectNodeSelector S I).1 !! k = Some v ∧ (injectNodeSelector S I).2 !! k = None)
      ∨ ((injectNodeSelector S I).1 !! k = None ∧ (injectNodeSelector S I).2 !! k = Some v).
Proof.
  rewrite injectNodeSelector_filter. split; [done|].
  intros k v Hk. simpl. destruct (decide (ignored I k)) as [Hi|Hi].
  - left. split.
    + by apply map_lookup_filter_Some.
    + apply map_lookup_filter_None. right. intros ? _. simpl. tauto.
  - right. split.
    + apply map_lookup_filter_None. right. by intros ? _.
    + by apply map_lookup_filter_Some.
Qed.

(** The partition as the design document words it fails when the ignore
    list holds the empty string and the selector has the empty key. *)
Lemma selector_partition_fails :
  ¬ selector_partition selector_empty_key [""].
Proof.
  unfold selector_partition. intros H.
  apply (f_equal (λ r, r.2 !! "")) in H. vm_compute in H. discriminate H.
Qed.

(** With no empty string in the ignore list the test [labelMap[k] != ""]
    is membership in the list, and the partition is the one of the design
    document. *)
Lemma selector_partition_without_empty (S : gmap string string) (I : list string) :
  "" ∉ I → selector_partition S I.
Proof.
  intros Hne. unfold selector_partition. rewrite injectNodeSelector_filter.
  assert (∀ k, ignored I k ↔ k ∈ I) as Hmem.
  { intros k. unfold ignored. split; [by intros [? _]|].
    intros Hk. split; [done|]. by intros ->. }
  f_equal; apply map_filter_ext; intros k v _; cbn [fst]; by rewrite Hmem.
Qed.

(** C4: [injectNodeSelector] is documented to "reserve ignoreLabels in
    nodeSelector", and it does so, as the design document says, for every
    selector and every ignore list without the empty string: the live
    selector is the restriction of S to the keys of I, the backup the
    restriction to the other keys, and every pair of S is in exactly one of
    the two. With the empty string in the ignore list the key "" is not
    reserved: line 282 tests membership as [labelMap[k] != ""], which is
    false for the entry [labelMap[""] = ""], so the pair is deleted from the
    live selector and returned in the backup, where the partition keeps it
    live and backs up nothing. *)
Theorem injectNodeSelector_empty_key :
  (∀ S I, "" ∉ I →
     selector_partition S I
     ∧ ∀ k v, S !! k = Some v →
         ((injectNodeSelector S I).1 !! k = Some v
          ∧ (injectNodeSelector S I).2 !! k = None)
         ∨ ((injectNodeSelector S I).1 !! k = None
            ∧ (injectNodeSelector S I).2 !! k = Some v))
  ∧ injectNodeSelector selector_empty_key [""] = (∅, selector_empty_key)
  ∧ (filter (λ kv, kv.1 ∈ [""]) selector_empty_key,
     filter (λ kv, kv.1 ∉ [""]) selector_empty_key)
    = (selector_empty_key, ∅)
  ∧ ¬ selector_partition selector_empty_key [""].
Proof.
  split; [|split; [|split]].
  - intros S I Hne. split; [by apply selector_partition_without_empty|].
    apply injectNodeSelector_partition.
  - vm_compute. reflexivity.
  - vm_compute. reflexivity.
  - apply selector_partition_fails.
Qed.

(** ** The affinity rewrite *)

(** C3 at two inputs, with an empty ignore list, where every requirement
    is to be removed and backed up. With two match-fields in a term the
    second one stays on the live term, which is therefore neither emptied nor
    dropped: the second deletion reslices with [mfIdx-mesDeleteCount = 1] and
    [mfIdx-mfsDeleteCount+1 = 1] and removes nothing. With a match-expression
    and a match-field in a term the lower bound [mfIdx-mesDeleteCount] is
    [-1] and the reslice panics. The document's rewrite clears the required
    affinity in both cases. *)
Theorem injectAffinity_fields_offset :
  injectAffinity affinity_two_fields [] =
    Ok (required_affinity [mkTerm [] [field_not_in_node_2]],
        Some affinity_two_fields)
  ∧ affinity_rewrite affinity_two_fields [] =
      (mkAffinity (Some (mkNodeAffinity None [])) None None,
       Some affinity_two_fields)
  ∧ injectAffinity affinity_expression_and_field [] =
      Panic "slice bounds out of range"
  ∧ affinity_rewrite affinity_expression_and_field [] =
      (mkAffinity (Some (mkNodeAffinity None [])) None None,
       Some affinity_expression_and_field).
Proof. repeat split; vm_compute; reflexivity. Qed.

(** ** The Volume-Affinity Resolver *)

Lemma string_length_0 (s : string) : String.length s = 0 ↔ s = "".
Proof. destruct s; simpl; split; intros H; by inversion H. Qed.

Section ResolverFacts.

Variable SelectedNodeKey : string.
Variable whsvr : webhookServer.

Lemma scan_volumes_find pod volumes :
  scan_volumes SelectedNodeKey whsvr pod volumes =
    match list_find (λ v, selected_node SelectedNodeKey whsvr (Namespace pod) v ≠ "")
                    volumes with
    | Some (i, v) =>
      (omap claim_of (take (S i) volumes),
       set_Spec (set_NodeName (selected_node SelectedNodeKey whsvr (Namespace pod) v)
                   (Spec pod)) pod)
    | None => (omap claim_of volumes, pod)
    end.
Proof.
  induction volumes as [|v vs IH]; [done|].
  cbn [scan_volumes list_find take omap list_omap].
  destruct (PersistentVolumeClaim v) as [src|] eqn:Hsrc.
  - assert (selected_node SelectedNodeKey whsvr (Namespace pod) v =
            getNodeNameFromPVC SelectedNodeKey whsvr (Namespace pod) (ClaimName src))
      as Hsel by (unfold selected_node; by rewrite Hsrc).
    assert (claim_of v = Some (ClaimName src)) as Hclaim
      by (unfold claim_of; by rewrite Hsrc).
    rewrite Hclaim.
    destruct (decide (String.length _ ≠ 0)) as [Hn|Hn].
    + rewrite decide_True by (rewrite Hsel; by rewrite <- string_length_0).
      cbn. by rewrite Hsel.
    + rewrite decide_False by (rewrite Hsel, <- string_length_0; tauto).
      rewrite IH. by destruct (list_find _ vs) as [[i w]|].
  - assert (selected_node SelectedNodeKey whsvr (Namespace pod) v = "") as Hsel
      by (unfold selected_node; by rewrite Hsrc).
    assert (claim_of v = None) as Hclaim by (unfold claim_of; by rewrite Hsrc).
    rewrite Hclaim. rewrite decide_False by (rewrite Hsel; tauto).
    rewrite IH. by destruct (list_find _ vs) as [[i w]|].
Qed.

(** C9, as the code has it: a pod without a volume list is left alone and
    nothing is looked up. Otherwise the claims are looked up in volume order
    until one yields a non-empty selected node: that node becomes the pod's
    node name, nothing else changes, and the volumes after the winner are not
    consulted. A claim whose lookup finds no node (claim unknown, no
    annotations, annotation absent or empty) does not end the scan: the next
    claim is tried. When no claim yields a node the pod is unchanged. The
    function cannot fail. *)
Theorem trySetNodeName_scan pod :
  trySetNodeName_log SelectedNodeKey whsvr pod =
    match Volumes (Spec pod) with
    | None => ([], pod)
    | Some volumes =>
      match list_find (λ v, selected_node SelectedNodeKey whsvr (Namespace pod) v ≠ "")
                      volumes with
      | Some (i, v) =>
        (omap claim_of (take (S i) volumes),
         set_Spec (set_NodeName (selected_node SelectedNodeKey whsvr (Namespace pod) v)
                     (Spec pod)) pod)
      | None => (omap claim_of volumes, pod)
      end
    end.
Proof.
  unfold trySetNodeName_log. destruct (Volumes (Spec pod)); [|done].
  apply scan_volumes_find.
Qed.

End ResolverFacts.

(** The scan of the sample pod: both claims are looked up, the third is not. *)
Lemma trySetNodeName_two_claims :
  trySetNodeName_log sample_SelectedNodeKey server_one_bound pod_two_claims
    = (["missing"; "bound"],
       set_Spec (set_NodeName "node-3" (Spec pod_two_claims)) pod_two_claims).
Proof. vm_compute. reflexivity. Qed.

(** C9 as the design document words it fails on a pod whose first claim is
    unknown to the lister and whose second claim is bound: the scan goes on
    to the second claim and pins the pod to its node. *)
Lemma first_claim_decides_fails :
  ¬ first_claim_decides sample_SelectedNodeKey server_one_bound pod_two_claims.
Proof.
  intros H. specialize (H _ eq_refl). vm_compute in H. discriminate H.
Qed.

(** ** The Admission Decision Engine *)


Section MutateFacts.

Variable UnschedulableCache : Type.
Variable Add : string → string → UnschedulableCache → UnschedulableCache.
Variable GetFreezeNodes : string → UnschedulableCache → list string.
Variables TaintNodeNotReady TaintNodeUnreachable : string.
Variables SelectorKey SelectedNodeKey CreatedbyDescheduler : string.
Variable IsVirtualPod : Pod → bool.
Variable unmarshal : string → Pod + string.
Variable marshal : ClustersNodeSelection → option string.
Variable ReplacePodNodeNameNodeAffinity :
  option Affinity → string → list string → option Affinity.
Variable CreateJSONPatch : Pod → Pod → string * option string.

Local Abbreviation shouldSkip := (shouldSkip CreatedbyDescheduler IsVirtualPod).
Local Abbreviation mutate :=
  (mutate UnschedulableCache Add GetFreezeNodes
          TaintNodeNotReady TaintNodeUnreachable SelectorKey SelectedNodeKey
          CreatedbyDescheduler IsVirtualPod unmarshal marshal
          ReplacePodNodeNameNodeAffinity CreateJSONPatch).




(** C8, as the code has it: a request is denied (allowed=false) exactly
    when its kind is not "Pod" or its raw object does not parse as a pod; in
    both cases a response is returned and it carries no patch. Nothing later in
    the pipeline (claim lookup, registry, backup annotation, diff) denies. *)
Theorem mutate_denies whsvr req freezeCache :
  (Kind req ≠ "Pod" ∨ (∃ err, unmarshal (Raw req) = inr err) →
   ∃ resp, mutate whsvr req freezeCache = Ok (resp, freezeCache)
           ∧ Allowed resp = false ∧ no_patch resp)
  ∧ ∀ resp freezeCache',
      mutate whsvr req freezeCache = Ok (resp, freezeCache') →
      (Allowed resp = false ↔
         Kind req ≠ "Pod" ∨ ∃ err, unmarshal (Raw req) = inr err).
Proof.
  unfold mutate. destruct (decide (Kind req = "Pod")) as [Hk|Hk].
  - destruct (unmarshal (Raw req)) as [pod|err] eqn:Hraw.
    + split; [intros [?|[? ?]]; done|].
      intros resp fc' H. split; [|intros [?|[? ?]]; done].
      intros Hdeny. exfalso. revert H.
      destruct (shouldSkip pod); [intros [= <- _]; done|].
      destruct (decide (Operation req = Update)); [intros [= <- _]; done|].
      destruct (inject _ _ _ _ _ _) as [clone|msg]; simpl; [|done].
      destruct (CreateJSONPatch _ _) as [patch e]. intros [= <- _]. done.
    + split.
      * intros _. eexists. by repeat split.
      * intros resp fc' [= <- _]. simpl. split; [|done]. intros _. right. by eexists.
  - split.
    + intros _. eexists. by repeat split.
    + intros resp fc' [= <- _]. simpl. split; [|done]. intros _. by left.
Qed.

End MutateFacts.



Lemma mutate_update_records :
  sample_mutate pod_reporting server_plain (request Update "{}") ∅
    = Ok (mkResponse true None "" None, {[ "u1" := {[ "node-7" ]} ]}).
Proof. vm_compute. reflexivity. Qed.

(** [mutate_denies] on a request whose raw object is empty. *)
Lemma mutate_denies_witness :
  ∃ resp,
    sample_mutate pod_unlabelled server_plain (request Create "") ∅ = Ok (resp, ∅)
    ∧ Allowed resp = false ∧ no_patch resp.
Proof.
  unfold sample_mutate. apply mutate_denies. right. by eexists.
Defined.


(** C8 as the design document words it fails on a request of kind "Pod"
    whose raw object does not parse: it is denied. *)
Lemma denies_as_worded_fails :
  ¬ denies_as_worded (gmap string (gset string))
      UnschedulableCache_Add UnschedulableCache_GetFreezeNodes
      sample_TaintNodeNotReady sample_TaintNodeUnreachable
      sample_SelectorKey sample_SelectedNodeKey sample_CreatedbyDescheduler
      (IsVirtualPod_labelled sample_VirtualPodLabel) (decode_as pod_unlabelled)
      render keep_affinity empty_patch.
Proof.
  intros H.
  destruct (H server_plain (request Create "") ∅
              (mkResponse false (Some (mkStatus 0 "unexpected end of JSON input")) "" None)
              ∅ eq_refl) as [Hdeny _].
  by apply Hdeny.
Qed.


(** ** Slices: deleting one element in place *)

Section SliceFacts.

Context {A : Type}.
Implicit Types (s : slice A) (l : list A).

Lemma elems_mk_slice l : elems (mk_slice l) = l.
Proof. unfold elems, mk_slice. simpl. by apply take_ge. Qed.

Lemma slice_wf_mk_slice l : slice_wf (mk_slice l).
Proof. unfold slice_wf, cap, mk_slice. simpl. lia. Qed.

Lemma length_elems s : slice_wf s → length (elems s) = len s.
Proof. unfold slice_wf, cap, elems. intros H. rewrite length_take. lia. Qed.

(** [append(s[:i], s[i+1:]...)] for an index [i] of [s]. *)
Lemma slice_delete s (i : nat) :
  slice_wf s → i < len s →
  slice_to s (Z.of_nat i) = Ok (Slice (arr s) i)
  ∧ slice_from s (Z.of_nat i + 1) = Ok (drop (S i) (elems s))
  ∧ slice_wf (append (Slice (arr s) i) (drop (S i) (elems s)))
  ∧ elems (append (Slice (arr s) i) (drop (S i) (elems s)))
    = take i (elems s) ++ drop (S i) (elems s).
Proof.
  intros Hwf Hi. pose proof (length_elems s Hwf) as Hlen.
  unfold slice_wf, cap in Hwf.
  assert (length (drop (S i) (elems s)) = len s - S i) as Hdrop
    by (rewrite length_drop; lia).
  repeat split.
  - unfold slice_to, cap. rewrite bool_decide_eq_true_2 by lia.
    by rewrite Nat2Z.id.
  - unfold slice_from. rewrite bool_decide_eq_true_2 by lia.
    by replace (Z.to_nat (Z.of_nat i + 1)) with (S i) by lia.
  - unfold slice_wf, append, cap. cbn [len arr]. rewrite Hdrop.
    rewrite decide_True by lia. cbn [len arr].
    rewrite !length_app, length_take, Hdrop, length_drop. lia.
  - unfold append, cap. cbn [len arr]. rewrite Hdrop.
    rewrite decide_True by lia. unfold elems at 1. cbn [len arr].
    rewrite app_assoc. rewrite take_app_length'.
    + unfold elems. by rewrite take_take, Nat.min_l by lia.
    + rewrite length_app, length_take, Hdrop. lia.
Qed.

End SliceFacts.

(** ** The affinity rewrite on terms without match-fields *)

Section AffinityFacts.

Variable I : list string.

Local Abbreviation kept := (λ r : NodeSelectorRequirement, ignored I (rKey r)).
Local Abbreviation removed := (λ r : NodeSelectorRequirement, ¬ ignored I (rKey r)).

Lemma expression_body_kept termIdx live mes cnt idx me :
  ignored I (rKey me) →
  expression_body (mk_labelMap I) termIdx (live, mes, cnt) idx me
    = Ok (live, mes, cnt).
Proof.
  intros Hk. unfold expression_body.
  by rewrite decide_True by (by apply labelMap_test).
Qed.

Lemma expression_body_removed termIdx live mes cnt idx me t :
  ¬ ignored I (rKey me) →
  live !! Z.to_nat termIdx = Some t →
  expression_body (mk_labelMap I) termIdx (live, mes, cnt) idx me
    = lo ← slice_to (liveExpressions t) (idx - cnt);
      hi ← slice_from (liveExpressions t) (idx - cnt + 1);
      Ok (<[Z.to_nat termIdx := LiveTerm (append lo hi) (liveFields t)]> live,
          mes ++ [me], (cnt + 1)%Z).
Proof.
  intros Hk Ht. unfold expression_body.
  rewrite decide_False by (by rewrite labelMap_test).
  unfold index_term. by rewrite Ht.
Qed.

(** The loop over the match-expressions deletes from the live list the
    entries it backs up: [before] are the entries already passed and still
    live, [l] the entries to come. *)
Lemma expression_loop termIdx (l : list NodeSelectorRequirement) :
  ∀ (idx : Z) live mes (cnt : Z) t before,
    live !! Z.to_nat termIdx = Some t →
    slice_wf (liveExpressions t) →
    elems (liveExpressions t) = before ++ l →
    Z.of_nat (length before) = (idx - cnt)%Z →
    ∃ s' cnt',
      range_loop (expression_body (mk_labelMap I) termIdx) idx l (live, mes, cnt)
        = Ok (<[Z.to_nat termIdx := LiveTerm s' (liveFields t)]> live,
              mes ++ filter removed l, cnt')
      ∧ slice_wf s' ∧ elems s' = before ++ filter kept l.
Proof.
  induction l as [|me l IH]; intros idx live mes cnt t before Ht Hwf Hel Hlen.
  - exists (liveExpressions t), cnt. cbn [range_loop].
    rewrite !filter_nil, !app_nil_r. rewrite app_nil_r in Hel.
    split; [|done]. rewrite list_insert_id; [done|]. by destruct t.
  - cbn [range_loop].
    destruct (decide (ignored I (rKey me))) as [Hk|Hk].
    + rewrite expression_body_kept by done. cbn [mbind result_bind].
      destruct (IH (idx + 1)%Z live mes cnt t (before ++ [me]))
        as (s' & cnt' & Hloop & Hwf' & Hel'); try done.
      { by rewrite <- app_assoc. }
      { rewrite length_app. simpl. lia. }
      exists s', cnt'. rewrite Hloop.
      rewrite filter_cons_False, filter_cons_True by (simpl; tauto).
      split; [done|]. split; [done|]. by rewrite Hel', <- app_assoc.
    + rewrite (expression_body_removed _ _ _ _ _ _ t) by done.
      assert (length before < len (liveExpressions t)) as Hlt.
      { rewrite <- (length_elems _ Hwf), Hel, length_app. simpl. lia. }
      destruct (slice_delete (liveExpressions t) (length before) Hwf Hlt)
        as (Hto & Hfrom & Hwf1 & Hel1).
      replace (idx - cnt)%Z with (Z.of_nat (length before)) by lia.
      rewrite Hto. cbn [mbind result_bind]. rewrite Hfrom. cbn [mbind result_bind].
      set (s1 := append _ _) in *.
      rewrite Hel, take_app_length in Hel1.
      rewrite (cons_middle me before l), app_assoc in Hel1.
      rewrite drop_app_length' in Hel1 by (rewrite length_app; simpl; lia).
      assert (Z.to_nat termIdx < length live) as Hti by (by eapply lookup_lt_Some).
      destruct (IH (idx + 1)%Z (<[Z.to_nat termIdx := LiveTerm s1 (liveFields t)]> live)
                   (mes ++ [me]) (cnt + 1)%Z (LiveTerm s1 (liveFields t)) before)
        as (s' & cnt' & Hloop & Hwf' & Hel'); try done.
      { by apply list_lookup_insert_eq. }
      { lia. }
      exists s', cnt'. rewrite Hloop. cbn [liveFields].
      rewrite list_insert_insert_eq.
      rewrite filter_cons_True, filter_cons_False by (simpl; tauto).
      split; [|done]. by rewrite <- app_assoc.
Qed.

Lemma nonempty_terms_cons t ts :
  nonempty_terms (t :: ts) = nonempty_terms [t] ++ nonempty_terms ts.
Proof. unfold nonempty_terms. by rewrite <- filter_app. Qed.

Lemma term_body_no_fields termIdx live acc term :
  live !! Z.to_nat termIdx = Some (live_of_term term) →
  MatchFields term = [] →
  ∃ s',
    term_body (mk_labelMap I) (live, acc) termIdx term
      = Ok (<[Z.to_nat termIdx := LiveTerm s' (mk_slice [])]> live,
            acc ++ nonempty_terms [extract_term I term])
    ∧ slice_wf s' ∧ elems s' = filter kept (MatchExpressions term).
Proof.
  intros Ht Hmf.
  destruct (expression_loop termIdx (MatchExpressions term) 0 live [] 0
              (live_of_term term) []) as (s' & cnt' & Hloop & Hwf & Hel);
    [done | apply slice_wf_mk_slice | apply elems_mk_slice | done |].
  exists s'. split; [|done].
  unfold term_body. rewrite Hloop. cbn [mbind result_bind live_of_term liveFields].
  rewrite Hmf. cbn [range_loop mbind result_bind app].
  unfold nonempty_terms, extract_term. rewrite Hmf, filter_nil, filter_cons, filter_nil.
  destruct (filter removed (MatchExpressions term)) as [|r rs] eqn:Hrem.
  - rewrite decide_False by (simpl; lia).
    rewrite decide_False; [by rewrite app_nil_r|].
    unfold term_empty. simpl. tauto.
  - rewrite decide_True by (simpl; lia).
    rewrite decide_True; [done|]. unfold term_empty. simpl. by intros [_ ?].
Qed.

Lemma terms_loop (terms : list NodeSelectorTerm) : ∀ (idx : Z) done acc,
  Forall (λ t, MatchFields t = []) terms →
  idx = Z.of_nat (length done) →
  ∃ done',
    range_loop (term_body (mk_labelMap I)) idx terms
               (done ++ (live_of_term <$> terms), acc)
      = Ok (done ++ done', acc ++ nonempty_terms (extract_term I <$> terms))
    ∧ Forall2 (λ t' term,
                 slice_wf (liveExpressions t') ∧ liveFields t' = mk_slice []
                 ∧ elems (liveExpressions t') = filter kept (MatchExpressions term))
              done' terms.
Proof.
  induction terms as [|term terms IH]; intros idx done acc Hnf Hidx.
  - exists []. cbn [range_loop fmap list_fmap]. split; [|constructor].
    unfold nonempty_terms. by rewrite filter_nil, !app_nil_r.
  - apply Forall_cons in Hnf as [Hmf Hnf]. cbn [range_loop fmap list_fmap].
    destruct (term_body_no_fields idx (done ++ live_of_term term :: (live_of_term <$> terms))
                acc term) as (s' & Hbody & Hwf & Hel); [|done|].
    { apply list_lookup_middle. lia. }
    rewrite Hbody. cbn [mbind result_bind].
    replace (Z.to_nat idx) with (length done + 0) by lia.
    rewrite insert_app_r. cbn [insert list_insert].
    rewrite (cons_middle _ done), app_assoc.
    destruct (IH (idx + 1)%Z (done ++ [LiveTerm s' (mk_slice [])])
                 (acc ++ nonempty_terms [extract_term I term])) as (done' & Hloop & Hall);
      [done | rewrite length_app; simpl; lia |].
    exists (LiveTerm s' (mk_slice []) :: done'). split.
    + rewrite Hloop. rewrite <- !app_assoc. cbn [app fmap list_fmap].
      by rewrite (nonempty_terms_cons (extract_term I term) (extract_term I <$> terms)).
    + by constructor.
Qed.

Lemma filter_terms_loop (live : list liveTerm) : ∀ acc,
  foldl (λ filteredTerms term,
           if decide (len (liveFields term) = 0 ∧ len (liveExpressions term) = 0)
           then filteredTerms
           else filteredTerms ++ [term]) acc live
    = acc ++ filter (λ t, ¬ (len (liveFields t) = 0 ∧ len (liveExpressions t) = 0)) live.
Proof.
  induction live as [|t live IH]; intros acc; cbn [foldl].
  - by rewrite filter_nil, app_nil_r.
  - rewrite IH, filter_cons.
    destruct (decide (len (liveFields t) = 0 ∧ len (liveExpressions t) = 0)) as [H|H].
    + by rewrite decide_False by tauto.
    + rewrite decide_True by done. by rewrite <- app_assoc.
Qed.

Lemma filtered_terms_strip (done' : list liveTerm) (terms : list NodeSelectorTerm) :
  Forall2 (λ t' term,
             slice_wf (liveExpressions t') ∧ liveFields t' = mk_slice []
             ∧ elems (liveExpressions t') = filter kept (MatchExpressions term))
          done' terms →
  Forall (λ t, MatchFields t = []) terms →
  term_of_live <$> filter_terms done' = nonempty_terms (strip_term I <$> terms).
Proof.
  unfold filter_terms. rewrite filter_terms_loop, app_nil_l.
  induction 1 as [|t' term done' terms (Hwf & Hf & Hel) _ IH]; intros Hnf; [done|].
  apply Forall_cons in Hnf as [Hmf Hnf]. specialize (IH Hnf).
  rewrite fmap_cons, nonempty_terms_cons, filter_cons.
  assert (term_of_live t' = strip_term I term) as Hterm.
  { unfold term_of_live, strip_term. rewrite Hf, Hel, Hmf. by rewrite filter_nil. }
  assert (len (liveFields t') = 0 ∧ len (liveExpressions t') = 0
          ↔ term_empty (strip_term I term)) as Hempty.
  { rewrite <- Hterm. unfold term_empty, term_of_live. cbn [MatchFields MatchExpressions].
    rewrite Hf, <- (length_elems _ Hwf). simpl.
    rewrite elems_mk_slice. split.
    - intros [_ H0]. split; [done|]. by apply nil_length_inv.
    - intros [_ ->]. done. }
  unfold nonempty_terms at 1. rewrite filter_cons, filter_nil.
  destruct (decide (term_empty (strip_term I term))) as [He|He].
  - rewrite decide_False by tauto. rewrite decide_False by tauto. by rewrite IH.
  - rewrite decide_True by tauto. rewrite decide_True by tauto.
    rewrite fmap_cons, IH, Hterm. done.
Qed.

(** On an affinity whose required terms carry no match-fields
    [injectAffinity] returns, and it is the rewrite of the design document. *)
Lemma injectAffinity_no_fields (a : Affinity) :
  no_match_fields a → injectAffinity a I = Ok (affinity_rewrite a I).
Proof.
  unfold no_match_fields, required_terms, injectAffinity, affinity_rewrite.
  destruct (aNodeAffinity a) as [nodeAffinity|]; [|done].
  destruct (RequiredDuringSchedulingIgnoredDuringExecution nodeAffinity)
    as [required|]; [|done].
  intros Hnf.
  destruct (terms_loop (NodeSelectorTerms required) 0 [] [] Hnf eq_refl)
    as (done' & Hloop & Hall).
  rewrite app_nil_l in Hloop. rewrite Hloop. cbn [mbind result_bind app].
  pose proof (filtered_terms_strip _ _ Hall Hnf) as Hstrip.
  rewrite <- Hstrip.
  assert (∀ (A : Type) (l : list A) (B : Type) (x y : B),
            (if decide (length l = 0) then x else y)
            = match l with [] => x | _ => y end) as Hcase.
  { intros A [|? ?] B x y; by simpl. }
  rewrite !Hcase.
  assert (match filter_terms done' with
          | [] => None
          | _ => Some (mkNodeSelector (term_of_live <$> filter_terms done'))
          end = selector_of (term_of_live <$> filter_terms done')) as ->
    by (by destruct (filter_terms done')).
  by destruct (nonempty_terms _).
Qed.

Lemma strip_term_idem t : strip_term I (strip_term I t) = strip_term I t.
Proof.
  unfold strip_term. cbn [MatchExpressions MatchFields].
  by rewrite !list_filter_filter_l.
Qed.

Lemma nonempty_strip_fixed (ts : list NodeSelectorTerm) :
  Forall (λ t, strip_term I t = t ∧ ¬ term_empty t) ts →
  nonempty_terms (strip_term I <$> ts) = ts.
Proof.
  unfold nonempty_terms. induction 1 as [|t ts [Hs He] _ IH]; [done|].
  rewrite fmap_cons, filter_cons, Hs, decide_True by done. by rewrite IH.
Qed.

Lemma nonempty_strip_Forall (ts : list NodeSelectorTerm) :
  Forall (λ t, strip_term I t = t ∧ ¬ term_empty t)
         (nonempty_terms (strip_term I <$> ts)).
Proof.
  apply Forall_forall. intros t [He Hin]%list_elem_of_filter.
  apply list_elem_of_fmap in Hin as (t0 & -> & _).
  split; [apply strip_term_idem | done].
Qed.

Lemma required_terms_rewrite (a : Affinity) :
  required_terms (affinity_rewrite a I).1 =
    nonempty_terms (strip_term I <$> required_terms a).
Proof.
  unfold required_terms, affinity_rewrite.
  destruct (aNodeAffinity a) as [nodeAffinity|] eqn:Hna; simpl.
  - destruct (RequiredDuringSchedulingIgnoredDuringExecution nodeAffinity)
      as [required|] eqn:Hreq; simpl.
    + by destruct (nonempty_terms _).
    + by rewrite Hna, Hreq.
  - by rewrite Hna.
Qed.

Lemma affinity_rewrite_idem (a : Affinity) :
  (affinity_rewrite (affinity_rewrite a I).1 I).1 = (affinity_rewrite a I).1.
Proof.
  unfold affinity_rewrite at 2 3.
  destruct (aNodeAffinity a) as [nodeAffinity|] eqn:Hna; simpl.
  - destruct (RequiredDuringSchedulingIgnoredDuringExecution nodeAffinity)
      as [required|] eqn:Hreq; simpl.
    + pose proof (nonempty_strip_Forall (NodeSelectorTerms required)) as Hall.
      apply nonempty_strip_fixed in Hall. unfold affinity_rewrite. simpl.
      destruct (nonempty_terms (strip_term I <$> NodeSelectorTerms required))
        as [|t ts] eqn:Hts; simpl; [done|].
      change (strip_term I t :: list_fmap _ _ (strip_term I) ts)
        with (strip_term I <$> t :: ts).
      by rewrite Hall.
    + unfold affinity_rewrite. by rewrite Hna, Hreq.
  - unfold affinity_rewrite. by rewrite Hna.
Qed.

Lemma no_match_fields_rewrite (a : Affinity) :
  no_match_fields a → no_match_fields (affinity_rewrite a I).1.
Proof.
  unfold no_match_fields. rewrite required_terms_rewrite.
  rewrite !Forall_forall. intros Hnf t [_ Hin]%list_elem_of_filter.
  apply list_elem_of_fmap in Hin as (t0 & -> & Hin).
  unfold strip_term. cbn [MatchFields]. by rewrite (Hnf _ Hin), filter_nil.
Qed.

Lemma injectNodeSelector_again (S : gmap string string) :
  injectNodeSelector (injectNodeSelector S I).1 I = ((injectNodeSelector S I).1, ∅).
Proof.
  rewrite !injectNodeSelector_filter. cbn [fst]. f_equal.
  - apply map_filter_id. by intros k v [_ ?]%map_lookup_filter_Some.
  - apply map_empty. intros k. apply map_lookup_filter_None. right.
    intros v [_ ?]%map_lookup_filter_Some. simpl in *. tauto.
Qed.

End AffinityFacts.

(** ** The Constraint Rewriter *)

Lemma injectAffinity_frame (a a' : Affinity) (I : list string) backup :
  injectAffinity a I = Ok (a', backup) →
  ∃ required',
    a' = mkAffinity
           (match aNodeAffinity a with
            | Some nodeAffinity =>
              Some (mkNodeAffinity required'
                      (PreferredDuringSchedulingIgnoredDuringExecution nodeAffinity))
            | None => None
            end)
           (aPodAffinity a) (aPodAntiAffinity a).
Proof.
  unfold injectAffinity. destruct a as [[[required preferred]|] pa paa]; simpl.
  - destruct required as [required|].
    + destruct (range_loop _ _ _ _) as [[live nodeSelectorTerm]|msg]; simpl; [|done].
      destruct (decide (length nodeSelectorTerm = 0)); intros [= <- _]; by eexists.
    + intros [= <- _]. by exists None.
  - intros [= <- _]. by exists None.
Qed.

Section InjectFacts.

Variables TaintNodeNotReady TaintNodeUnreachable SelectorKey : string.
Variable marshal : ClustersNodeSelection → option string.

Local Abbreviation inject :=
  (inject TaintNodeNotReady TaintNodeUnreachable SelectorKey marshal).
Local Abbreviation getPodTolerations :=
  (getPodTolerations TaintNodeNotReady TaintNodeUnreachable).
Local Abbreviation inject_result :=
  (inject_result TaintNodeNotReady TaintNodeUnreachable SelectorKey).

Lemma inject_eq pod ks :
  skipInject pod = false →
  inject pod ks =
    r ← rewrite_affinity pod ks;
    Ok (inject_result pod r.1 (rewrite_selector pod ks).1
          (marshal (mkClustersNodeSelection (rewrite_selector pod ks).2 r.2
                      (Tolerations (Spec pod))))).
Proof.
  intros Hskip. unfold inject, rewrite_affinity, rewrite_selector.
  rewrite Hskip.
  destruct (Affinity_ (Spec pod)) as [a|]; simpl.
  - destruct (injectAffinity a ks) as [[a' backup]|msg]; simpl; [|done].
    destruct (NodeSelector_ (Spec pod)) as [m|]; simpl.
    + destruct (injectNodeSelector m ks) as [m' final]; simpl.
      by destruct (marshal _).
    + by destruct (marshal _).
  - destruct (NodeSelector_ (Spec pod)) as [m|]; simpl.
    + destruct (injectNodeSelector m ks) as [m' final]; simpl.
      by destruct (marshal _).
    + by destruct (marshal _).
Qed.

(** C10: [inject] leaves the pod's affinity in place, and what it changes
    in it is at most the required node-affinity selector: the pod affinity,
    the pod anti-affinity and the preferred node-affinity terms of the pod
    that [inject] returns are the ones of the input, also when every required
    term has been stripped. [inject] does return when no required term
    carries match-fields. *)
Theorem inject_affinity_frame pod ks a :
  Affinity_ (Spec pod) = Some a →
  (no_match_fields a → ∃ pod', inject pod ks = Ok pod')
  ∧ ∀ pod',
      inject pod ks = Ok pod' →
      ∃ required',
        Affinity_ (Spec pod') =
          Some (mkAffinity
                  (match aNodeAffinity a with
                   | Some nodeAffinity =>
                     Some (mkNodeAffinity required'
                             (PreferredDuringSchedulingIgnoredDuringExecution nodeAffinity))
                   | None => None
                   end)
                  (aPodAffinity a) (aPodAntiAffinity a)).
Proof.
  intros Ha. destruct (skipInject pod) eqn:Hskip.
  - unfold inject. rewrite Hskip. split; [by eexists|].
    intros pod' [= <-]. rewrite Ha.
    destruct a as [[[required preferred]|] pa paa]; simpl;
      [by eexists | by exists None].
  - rewrite inject_eq by done. unfold rewrite_affinity. rewrite Ha. split.
    + intros Hnf. rewrite injectAffinity_no_fields by done.
      destruct (affinity_rewrite a ks). by eexists.
    + intros pod'.
      destruct (injectAffinity a ks) as [[a' backup]|msg] eqn:Hinj; simpl; [|done].
      intros [= <-]. simpl.
      apply injectAffinity_frame in Hinj as [required' ->]. by eexists.
Qed.

End InjectFacts.

(** ** A second pass of the Constraint Rewriter *)

Section InjectTwice.

Variables TaintNodeNotReady TaintNodeUnreachable SelectorKey : string.
Variable marshal : ClustersNodeSelection → option string.

Local Abbreviation inject :=
  (inject TaintNodeNotReady TaintNodeUnreachable SelectorKey marshal).
Local Abbreviation getPodTolerations :=
  (getPodTolerations TaintNodeNotReady TaintNodeUnreachable).
Local Abbreviation inject_result :=
  (inject_result TaintNodeNotReady TaintNodeUnreachable SelectorKey).
Local Abbreviation substitute := (substitute TaintNodeNotReady TaintNodeUnreachable).
Local Abbreviation normalized := (normalized TaintNodeNotReady TaintNodeUnreachable).
Local Abbreviation well_known := (well_known TaintNodeNotReady TaintNodeUnreachable).

Lemma substitute_idem t : substitute (substitute t) = substitute t.
Proof.
  unfold substitute. destruct (well_known (Key t)) eqn:Hk; simpl; by rewrite Hk.
Qed.

Lemma substitute_canonical k : well_known k = true → substitute (canonical k) = canonical k.
Proof. intros Hk. unfold substitute. simpl. by rewrite Hk. Qed.

Lemma seen_app k (l1 l2 : list Toleration) : seen k (l1 ++ l2) = seen k l1 || seen k l2.
Proof. unfold seen. apply existsb_app. Qed.

Lemma seen_substitute k l : seen k (substitute <$> l) = seen k l.
Proof.
  unfold seen. induction l as [|t l IH]; [done|].
  rewrite fmap_cons. cbn [existsb].
  by rewrite IH, (Key_substitute TaintNodeNotReady TaintNodeUnreachable).
Qed.

Lemma seen_default k (b : bool) :
  b || seen k (if b then [] else [canonical k]) = true.
Proof.
  destruct b; [done|]. unfold seen. simpl. by rewrite bool_decide_eq_true_2.
Qed.

Lemma normalized_idem l : normalized (normalized l) = normalized l.
Proof.
  unfold normalized at 1.
  assert (seen TaintNodeNotReady (normalized l) = true) as ->.
  { unfold normalized. rewrite !seen_app, seen_substitute, orb_assoc.
    by rewrite seen_default. }
  assert (seen TaintNodeUnreachable (normalized l) = true) as ->.
  { unfold normalized. rewrite !seen_app, seen_substitute.
    rewrite (orb_comm (seen _ (if seen TaintNodeNotReady l then _ else _))), orb_assoc.
    by rewrite seen_default. }
  rewrite !app_nil_r. unfold normalized. rewrite !fmap_app. f_equal; [|f_equal].
  - rewrite <- list_fmap_compose. apply list_fmap_ext. intros _ t _. apply substitute_idem.
  - destruct (seen TaintNodeNotReady l); [done|].
    rewrite list_fmap_singleton, substitute_canonical; [done|].
    unfold well_known. by rewrite bool_decide_eq_true_2.
  - destruct (seen TaintNodeUnreachable l); [done|].
    rewrite list_fmap_singleton, substitute_canonical; [done|].
    unfold well_known. rewrite (bool_decide_eq_true_2 (_ = TaintNodeUnreachable)) by done.
    by rewrite orb_true_r.
Qed.

Lemma skipInject_result pod liveAffinity liveSelector c :
  skipInject (inject_result pod liveAffinity liveSelector (Some c)) = false.
Proof. unfold skipInject. simpl. by rewrite andb_false_r. Qed.

Lemma rewrite_selector_again pod1 pod ks :
  NodeSelector_ (Spec pod1) = (rewrite_selector pod ks).1 →
  rewrite_selector pod1 ks = ((rewrite_selector pod ks).1, ∅).
Proof.
  unfold rewrite_selector. intros ->.
  destruct (NodeSelector_ (Spec pod)) as [m|]; simpl; [|done].
  by rewrite injectNodeSelector_again.
Qed.

Lemma rewrite_affinity_no_fields pod ks :
  no_match_fields_pod pod →
  rewrite_affinity pod ks =
    Ok (match Affinity_ (Spec pod) with
        | Some a => (Some (affinity_rewrite a ks).1, (affinity_rewrite a ks).2)
        | None => (None, None)
        end).
Proof.
  unfold no_match_fields_pod, rewrite_affinity.
  destruct (Affinity_ (Spec pod)) as [a|]; [|done].
  intros Hnf. rewrite injectAffinity_no_fields by done.
  by destruct (affinity_rewrite a ks).
Qed.

(** C5, as the code has it, with a serializer that does not fail (as
    json.Marshal on this record). When both passes return, the second one
    leaves the live node selector and the toleration list as the first one
    left them, but it writes the backup annotation anew, from the pod as
    already rewritten: its selector part is empty and its tolerations are the
    normalized ones, so the backup of the first pass is overwritten. On a pod
    whose required terms carry no match-fields both passes do return, and the
    second one leaves the live affinity as it was too. *)
Theorem inject_twice pod ks :
  (∀ cns, is_Some (marshal cns)) →
  (∀ pod1 pod2,
     inject pod ks = Ok pod1 → inject pod1 ks = Ok pod2 →
     NodeSelector_ (Spec pod2) = NodeSelector_ (Spec pod1)
     ∧ Tolerations (Spec pod2) = Tolerations (Spec pod1)
     ∧ (skipInject pod = false →
        ∃ backup c,
          marshal (mkClustersNodeSelection ∅ backup (Tolerations (Spec pod1))) = Some c
          ∧ Annotations pod2 = Some (<[SelectorKey := c]> (default ∅ (Annotations pod1)))))
  ∧ (no_match_fields_pod pod →
     ∃ pod1 pod2,
       inject pod ks = Ok pod1 ∧ inject pod1 ks = Ok pod2
       ∧ Affinity_ (Spec pod2) = Affinity_ (Spec pod1)).
Proof.
  intros Htotal. destruct (skipInject pod) eqn:Hskip.
  { assert (inject pod ks = Ok pod) as Hid by (unfold inject; by rewrite Hskip).
    split.
    - intros pod1 pod2 H1 H2. rewrite Hid in H1. injection H1 as <-.
      rewrite Hid in H2. injection H2 as <-. done.
    - intros _. by exists pod, pod. }
  rewrite inject_eq by done. split.
  - intros pod1 pod2 H1 H2.
    destruct (rewrite_affinity pod ks) as [[la b]|msg]; [|done].
    cbn [mbind result_bind fst snd] in H1.
    destruct (Htotal (mkClustersNodeSelection (rewrite_selector pod ks).2 b
                        (Tolerations (Spec pod)))) as [c Hc].
    rewrite Hc in H1. injection H1 as Hp1. symmetry in Hp1.
    assert (skipInject pod1 = false) as Hskip1
      by (rewrite Hp1; apply skipInject_result).
    assert (NodeSelector_ (Spec pod1) = (rewrite_selector pod ks).1) as Hsel1
      by (by rewrite Hp1).
    assert (Tolerations (Spec pod1) = Some (getPodTolerations pod)) as Htol1
      by (by rewrite Hp1).
    clear Hp1. rewrite inject_eq in H2 by done.
    destruct (rewrite_affinity pod1 ks) as [[la2 b2]|msg]; [|done].
    cbn [mbind result_bind fst snd] in H2.
    rewrite (rewrite_selector_again pod1 pod ks Hsel1) in H2.
    cbn [fst snd] in H2.
    destruct (Htotal (mkClustersNodeSelection ∅ b2 (Tolerations (Spec pod1))))
      as [c2 Hc2].
    rewrite Hc2 in H2. injection H2 as <-.
    split; [by rewrite Hsel1|]. split.
    + unfold inject_result. cbn [Spec Tolerations]. rewrite Htol1. f_equal.
      rewrite (getPodTolerations_eq _ _ pod1), Htol1. cbn [range_of default id].
      by rewrite (getPodTolerations_eq _ _ pod), normalized_idem.
    + intros _. by exists b2, c2.
  - intros Hnf. rewrite rewrite_affinity_no_fields by done.
    cbn [mbind result_bind].
    set (r := match Affinity_ (Spec pod) with
              | Some a => (Some (affinity_rewrite a ks).1, (affinity_rewrite a ks).2)
              | None => (None, None)
              end).
    destruct (Htotal (mkClustersNodeSelection (rewrite_selector pod ks).2 r.2
                        (Tolerations (Spec pod)))) as [c Hc].
    rewrite Hc. eexists. 
    assert (no_match_fields_pod (inject_result pod r.1 (rewrite_selector pod ks).1 (Some c)))
      as Hnf1.
    { unfold no_match_fields_pod in *. simpl. subst r.
      destruct (Affinity_ (Spec pod)); [|done]. by apply no_match_fields_rewrite. }
    rewrite inject_eq by apply skipInject_result.
    rewrite rewrite_affinity_no_fields by done. cbn [mbind result_bind].
    eexists. split; [reflexivity|]. split; [reflexivity|].
    simpl. subst r. destruct (Affinity_ (Spec pod)); [|done].
    simpl. by rewrite affinity_rewrite_idem.
Qed.

End InjectTwice.

(** The two passes on the design document's example pod, with "gpu"
    ignored. *)
Lemma inject_twice_witness :
  ∃ pod1 pod2,
    sample_inject pod_zone_gpu ["gpu"] = Ok pod1
    ∧ sample_inject pod1 ["gpu"] = Ok pod2
    ∧ Affinity_ (Spec pod2) = Affinity_ (Spec pod1).
Proof.
  destruct (inject_twice sample_TaintNodeNotReady sample_TaintNodeUnreachable
              sample_SelectorKey render pod_zone_gpu ["gpu"]) as [_ H].
  - intros cns. by eexists.
  - apply H. exact I.
Defined.

(** C5 as the design document words it fails on that pod: the first pass
    backs up the zone requirement, the second pass overwrites the backup with
    one that has no selector and holds the normalized tolerations. *)
Lemma inject_idempotent_fails :
  ¬ inject_idempotent sample_TaintNodeNotReady sample_TaintNodeUnreachable
      sample_SelectorKey render pod_zone_gpu ["gpu"].
Proof.
  assert (∃ pod1 pod2,
            sample_inject pod_zone_gpu ["gpu"] = Ok pod1
            ∧ sample_inject pod1 ["gpu"] = Ok pod2
            ∧ index_map (Annotations pod2) sample_SelectorKey
              ≠ index_map (Annotations pod1) sample_SelectorKey)
    as (pod1 & pod2 & H1 & H2 & Hne).
  { eexists _, _. split; [vm_compute; reflexivity|].
    split; [vm_compute; reflexivity|]. vm_compute. discriminate. }
  intros H. destruct (H pod1 pod2 H1 H2) as (_ & _ & _ & Ha). by apply Hne.
Qed.

(** The first and the second backup of that pod. *)
Lemma inject_twice_backups :
  (pod1 ← sample_inject pod_zone_gpu ["gpu"];
   pod2 ← sample_inject pod1 ["gpu"];
   Ok (index_map (Annotations pod1) sample_SelectorKey,
       index_map (Annotations pod2) sample_SelectorKey))
  = Ok ("{nodeSelector:zone=a; affinity:nil tolerations:}",
        "{nodeSelector: affinity:nil tolerations:"
        +:+ "node.kubernetes.io/not-ready;node.kubernetes.io/unreachable;}").
Proof. vm_compute. reflexivity. Qed.

(** [inject_affinity_frame] on a pod whose only required term is stripped:
    the affinity stays, with its pod anti-affinity and preferred terms. *)
Lemma inject_affinity_frame_witness :
  ∃ pod' required',
    sample_inject pod_anti_affine [] = Ok pod'
    ∧ Affinity_ (Spec pod') =
        Some (mkAffinity
                (Some (mkNodeAffinity required'
                         [mkPreferred 10 (mkTerm [requirement_on "disk"] [])]))
                None
                (Some (mkPodAntiAffinity
                         [mkPodAffinityTerm (Some {[ "app" := "web" ]}) []
                                            "kubernetes.io/hostname"] []))).
Proof.
  assert (∃ pod', sample_inject pod_anti_affine [] = Ok pod') as [pod' H]
    by (eexists; vm_compute; reflexivity).
  destruct (inject_affinity_frame sample_TaintNodeNotReady sample_TaintNodeUnreachable
              sample_SelectorKey render pod_anti_affine [] _ eq_refl) as [_ Hframe].
  destruct (Hframe pod' H) as [required' Hr].
  exists pod', required'. split; [exact H | exact Hr].
Defined.

(** * Further properties of the code *)

(** ** Tolerations the webhook does not know *)

Section TolerationOthers.

Variables TaintNodeNotReady TaintNodeUnreachable : string.

Local Abbreviation substitute := (substitute TaintNodeNotReady TaintNodeUnreachable).
Local Abbreviation well_known := (well_known TaintNodeNotReady TaintNodeUnreachable).
Local Abbreviation other :=
  (λ t : Toleration, Key t ≠ TaintNodeNotReady ∧ Key t ≠ TaintNodeUnreachable).

Lemma well_known_false k :
  well_known k = false ↔ k ≠ TaintNodeNotReady ∧ k ≠ TaintNodeUnreachable.
Proof.
  unfold well_known. rewrite orb_false_iff, !bool_decide_eq_false. tauto.
Qed.

Lemma filter_other_substitute (l : list Toleration) :
  filter other (substitute <$> l) = filter other l.
Proof.
  induction l as [|t l IH]; [done|]. rewrite fmap_cons.
  destruct (decide (other t)) as [Ho|Ho].
  - assert (substitute t = t) as ->.
    { unfold substitute. by rewrite (proj2 (well_known_false _) Ho). }
    by rewrite !filter_cons_True, IH.
  - rewrite !filter_cons_False, IH; [done | done |].
    by rewrite (Key_substitute TaintNodeNotReady TaintNodeUnreachable).
Qed.

Lemma filter_other_default (b : bool) k :
  well_known k = true → filter other (if b then [] else [canonical k]) = [].
Proof.
  intros Hk. destruct b; [done|]. rewrite filter_cons, decide_False; [done|].
  simpl. rewrite <- well_known_false. congruence.
Qed.

(** X1: [getPodTolerations] neither drops, changes nor reorders a
    toleration whose key is not one of the two well-known taint keys, and
    the list it returns has at least as many entries as the pod's and at most
    two more. *)
Theorem getPodTolerations_keeps_others pod :
  filter (λ t, Key t ≠ TaintNodeNotReady ∧ Key t ≠ TaintNodeUnreachable)
         (getPodTolerations TaintNodeNotReady TaintNodeUnreachable pod)
    = filter (λ t, Key t ≠ TaintNodeNotReady ∧ Key t ≠ TaintNodeUnreachable)
             (range_of (Tolerations (Spec pod)))
  ∧ length (range_of (Tolerations (Spec pod)))
      ≤ length (getPodTolerations TaintNodeNotReady TaintNodeUnreachable pod)
      ≤ length (range_of (Tolerations (Spec pod))) + 2.
Proof.
  rewrite getPodTolerations_eq. unfold normalized.
  set (l := range_of (Tolerations (Spec pod))). split.
  - rewrite !filter_app, filter_other_substitute, !filter_other_default, !app_nil_r.
    + done.
    + unfold well_known. rewrite (bool_decide_eq_true_2 (_ = TaintNodeUnreachable)) by done.
      apply orb_true_r.
    + unfold well_known. by rewrite bool_decide_eq_true_2.
  - rewrite !length_app, length_fmap.
    destruct (seen TaintNodeNotReady l), (seen TaintNodeUnreachable l); simpl; lia.
Qed.

End TolerationOthers.

(** ** What the resolver leaves alone *)

Section ResolverFrame.

Variable SelectedNodeKey : string.
Variable whsvr : webhookServer.



End ResolverFrame.

(** ** What the Constraint Rewriter leaves alone, and what it guarantees *)

Section InjectFrame.

Variables TaintNodeNotReady TaintNodeUnreachable SelectorKey : string.
Variable marshal : ClustersNodeSelection → option string.

Local Abbreviation inject :=
  (inject TaintNodeNotReady TaintNodeUnreachable SelectorKey marshal).
Local Abbreviation inject_result :=
  (inject_result TaintNodeNotReady TaintNodeUnreachable SelectorKey).
Local Abbreviation normalized := (normalized TaintNodeNotReady TaintNodeUnreachable).
Local Abbreviation substitute := (substitute TaintNodeNotReady TaintNodeUnreachable).

Lemma inject_Ok_result pod ks pod' :
  inject pod ks = Ok pod' → skipInject pod = false →
  ∃ liveAffinity liveSelector cnsByte,
    pod' = inject_result pod liveAffinity liveSelector cnsByte.
Proof.
  intros H Hskip. rewrite inject_eq in H by done.
  destruct (rewrite_affinity pod ks) as [[la b]|msg]; [|done].
  injection H as <-. by eexists _, _, _.
Qed.

(** X3: [inject] never touches the pod's namespace, name, labels, owner
    references, node name or volumes, and of the annotations it can only
    write the backup key: every other annotation is as it was. *)
Theorem inject_frame pod ks pod' :
  inject pod ks = Ok pod' →
  Namespace pod' = Namespace pod ∧ Name pod' = Name pod
  ∧ Labels pod' = Labels pod ∧ OwnerReferences pod' = OwnerReferences pod
  ∧ NodeName (Spec pod') = NodeName (Spec pod)
  ∧ Volumes (Spec pod') = Volumes (Spec pod)
  ∧ ∀ k, k ≠ SelectorKey →
      default ∅ (Annotations pod') !! k = default ∅ (Annotations pod) !! k.
Proof.
  intros H. destruct (skipInject pod) eqn:Hskip.
  - unfold inject in H. rewrite Hskip in H. by injection H as <-.
  - destruct (inject_Ok_result _ _ _ H Hskip) as (la & ls & c & ->).
    repeat split. intros k Hk. unfold inject_result. cbn [Annotations].
    destruct c as [c|]; [|done]. cbn [default id]. by rewrite lookup_insert_ne.
Qed.

Lemma seen_elem k l : seen k l = true → ∃ t, t ∈ l ∧ Key t = k.
Proof.
  unfold seen. intros (t & Hin & Hk)%existsb_exists.
  exists t. split; [by apply list_elem_of_In | by apply bool_decide_eq_true in Hk].
Qed.

Lemma normalized_has_default k l :
  k = TaintNodeNotReady ∨ k = TaintNodeUnreachable → canonical k ∈ normalized l.
Proof.
  intros Hk. unfold normalized. rewrite !elem_of_app.
  assert (well_known TaintNodeNotReady TaintNodeUnreachable k = true) as Hwk.
  { unfold well_known. destruct Hk as [->| ->].
    - by rewrite bool_decide_eq_true_2.
    - rewrite (bool_decide_eq_true_2 (_ = TaintNodeUnreachable)) by done.
      apply orb_true_r. }
  destruct (seen k l) eqn:Hseen.
  - left. apply seen_elem in Hseen as (t & Hin & <-).
    apply list_elem_of_fmap. exists t. split; [|done].
    unfold substitute. by rewrite Hwk.
  - right. destruct Hk as [->| ->]; rewrite Hseen; [left|right];
      by apply list_elem_of_singleton.
Qed.

(** X4: a pod without node selector (nil or empty), affinity and
    tolerations is returned by [inject] exactly as it came, without the
    default tolerations. Every other pod that [inject] returns holds, the
    serializer not failing, a toleration list with the canonical default for
    the not-ready taint and the one for the unreachable taint. *)
Theorem inject_tolerates_both pod ks pod' :
  (∀ cns, is_Some (marshal cns)) →
  inject pod ks = Ok pod' →
  (skipInject pod = true → pod' = pod)
  ∧ (skipInject pod = false →
     ∃ tolerations,
       Tolerations (Spec pod') = Some tolerations
       ∧ canonical TaintNodeNotReady ∈ tolerations
       ∧ canonical TaintNodeUnreachable ∈ tolerations).
Proof.
  intros Htotal H. split; intros Hskip.
  - unfold inject in H. rewrite Hskip in H. by injection H.
  - rewrite inject_eq in H by done.
    destruct (rewrite_affinity pod ks) as [[la b]|msg]; [|done].
    cbn [mbind result_bind fst snd] in H. injection H as <-.
    destruct (Htotal (mkClustersNodeSelection (rewrite_selector pod ks).2 b
                        (Tolerations (Spec pod)))) as [c ->].
    eexists. split; [reflexivity|].
    rewrite (getPodTolerations_eq TaintNodeNotReady TaintNodeUnreachable).
    split; apply normalized_has_default; [by left | by right].
Qed.

End InjectFrame.

(** ** The affinity rewrite: what every run gets right, where it is right
    throughout, and where it crashes *)

Section AffinityMore.

Variable I : list string.

Local Abbreviation kept := (λ r : NodeSelectorRequirement, ignored I (rKey r)).
Local Abbreviation removed := (λ r : NodeSelectorRequirement, ¬ ignored I (rKey r)).

Lemma range_loop_app {St A} (body : St → Z → A → result St) (l1 l2 : list A) :
  ∀ (i : Z) st,
    range_loop body i (l1 ++ l2) st =
      st' ← range_loop body i l1 st;
      range_loop body (i + Z.of_nat (length l1)) l2 st'.
Proof.
  induction l1 as [|x l1 IH]; intros i st; cbn [range_loop app length].
  - cbn. by rewrite Z.add_0_r.
  - destruct (body st i x) as [st1|msg]; cbn [mbind result_bind]; [|done].
    rewrite IH. by replace (i + 1 + Z.of_nat (length l1))%Z
                      with (i + Z.of_nat (S (length l1)))%Z by lia.
Qed.

Lemma field_body_kept termIdx m live mfs cnt idx mf :
  ignored I (rKey mf) →
  field_body (mk_labelMap I) termIdx m (live, mfs, cnt) idx mf = Ok (live, mfs, cnt).
Proof.
  intros Hk. unfold field_body. by rewrite decide_True by (by apply labelMap_test).
Qed.

Lemma field_body_removed termIdx m live mfs cnt idx mf t :
  ¬ ignored I (rKey mf) →
  live !! Z.to_nat termIdx = Some t →
  field_body (mk_labelMap I) termIdx m (live, mfs, cnt) idx mf
    = lo ← slice_to (liveFields t) (idx - m);
      hi ← slice_from (liveFields t) (idx - cnt + 1);
      Ok (<[Z.to_nat termIdx := LiveTerm (liveExpressions t) (append lo hi)]> live,
          mfs ++ [mf], (cnt + 1)%Z).
Proof.
  intros Hk Ht. unfold field_body.
  rewrite decide_False by (by rewrite labelMap_test).
  unfold index_term. by rewrite Ht.
Qed.

(** One iteration of either loop, when it does not panic: the live list
    changes at most at [termIdx], and the entry is backed up exactly when its
    key is not ignored. *)
Lemma expression_body_Ok termIdx live mes cnt idx me st' :
  expression_body (mk_labelMap I) termIdx (live, mes, cnt) idx me = Ok st' →
  (ignored I (rKey me) ∧ st' = (live, mes, cnt))
  ∨ (¬ ignored I (rKey me)
     ∧ ∃ t', st' = (<[Z.to_nat termIdx := t']> live, mes ++ [me], (cnt + 1)%Z)).
Proof.
  destruct (decide (ignored I (rKey me))) as [Hk|Hk].
  - rewrite expression_body_kept by done. intros [= <-]. by left.
  - unfold expression_body. rewrite decide_False by (by rewrite labelMap_test).
    destruct (index_term live termIdx) as [t|]; cbn [mbind result_bind]; [|done].
    destruct (slice_to _ _) as [lo|]; cbn [mbind result_bind]; [|done].
    destruct (slice_from _ _) as [hi|]; cbn [mbind result_bind]; [|done].
    intros [= <-]. right. split; [done|]. by eexists.
Qed.

Lemma field_body_Ok termIdx m live mfs cnt idx mf st' :
  field_body (mk_labelMap I) termIdx m (live, mfs, cnt) idx mf = Ok st' →
  (ignored I (rKey mf) ∧ st' = (live, mfs, cnt))
  ∨ (¬ ignored I (rKey mf)
     ∧ ∃ t', st' = (<[Z.to_nat termIdx := t']> live, mfs ++ [mf], (cnt + 1)%Z)).
Proof.
  destruct (decide (ignored I (rKey mf))) as [Hk|Hk].
  - rewrite field_body_kept by done. intros [= <-]. by left.
  - unfold field_body. rewrite decide_False by (by rewrite labelMap_test).
    destruct (index_term live termIdx) as [t|]; cbn [mbind result_bind]; [|done].
    destruct (slice_to _ _) as [lo|]; cbn [mbind result_bind]; [|done].
    destruct (slice_from _ _) as [hi|]; cbn [mbind result_bind]; [|done].
    intros [= <-]. right. split; [done|]. by eexists.
Qed.

(** A loop whose iterations behave so backs up the entries to remove, in
    order, counts them, and leaves the other terms alone. *)
Lemma requirement_loop_Ok
    (body : list liveTerm * list NodeSelectorRequirement * Z → Z
            → NodeSelectorRequirement
            → result (list liveTerm * list NodeSelectorRequirement * Z))
    (termIdx : Z) :
  (∀ live acc cnt idx r st',
     body (live, acc, cnt) idx r = Ok st' →
     (ignored I (rKey r) ∧ st' = (live, acc, cnt))
     ∨ (¬ ignored I (rKey r)
        ∧ ∃ t', st' = (<[Z.to_nat termIdx := t']> live, acc ++ [r], (cnt + 1)%Z))) →
  ∀ (l : list NodeSelectorRequirement) idx live acc cnt live' acc' cnt',
    range_loop body idx l (live, acc, cnt) = Ok (live', acc', cnt') →
    acc' = acc ++ filter removed l
    ∧ cnt' = (cnt + Z.of_nat (length (filter removed l)))%Z
    ∧ length live' = length live
    ∧ ∀ j, j ≠ Z.to_nat termIdx → live' !! j = live !! j.
Proof.
  intros Hbody l.
  induction l as [|r l IH]; intros idx live acc cnt live' acc' cnt'; cbn [range_loop].
  - intros [= <- <- <-]. rewrite filter_nil, app_nil_r. repeat split; simpl; lia.
  - destruct (body (live, acc, cnt) idx r) as [st1|msg] eqn:Hb;
      cbn [mbind result_bind]; [|done].
    apply Hbody in Hb as [[Hk ->]|[Hk [t' ->]]]; intros Hloop;
      apply IH in Hloop as (-> & -> & Hlen & Hframe).
    + rewrite filter_cons_False by (simpl; tauto). done.
    + rewrite filter_cons_True by done. rewrite <- app_assoc.
      rewrite length_insert in Hlen. repeat split; [simpl; lia | done |].
      intros j Hj. rewrite Hframe by done. by rewrite list_lookup_insert_ne.
Qed.

Lemma term_body_Ok live acc termIdx term live' acc' :
  term_body (mk_labelMap I) (live, acc) termIdx term = Ok (live', acc') →
  acc' = acc ++ nonempty_terms [extract_term I term]
  ∧ length live' = length live
  ∧ ∀ j, j ≠ Z.to_nat termIdx → live' !! j = live !! j.
Proof.
  unfold term_body.
  destruct (range_loop (expression_body _ _) _ _ _) as [[[live1 mes] cnt1]|msg] eqn:He;
    cbn [mbind result_bind]; [|done].
  destruct (range_loop (field_body _ _ _) _ _ _) as [[[live2 mfs] cnt2]|msg] eqn:Hf;
    cbn [mbind result_bind]; [|done].
  apply (requirement_loop_Ok _ termIdx) in He as (-> & _ & Hlen1 & Hfr1);
    [|intros *; apply expression_body_Ok].
  apply (requirement_loop_Ok _ termIdx) in Hf as (-> & _ & Hlen2 & Hfr2);
    [|intros *; apply field_body_Ok].
  rewrite !app_nil_l.
  assert (length live2 = length live
          ∧ ∀ j, j ≠ Z.to_nat termIdx → live2 !! j = live !! j) as Hrest.
  { split; [congruence|]. intros j Hj. by rewrite Hfr2, Hfr1. }
  unfold nonempty_terms, extract_term. rewrite filter_cons, filter_nil.
  destruct (decide (length (filter removed (MatchFields term)) ≠ 0
                    ∨ length (filter removed (MatchExpressions term)) ≠ 0)) as [Hne|Hne];
    intros [= <- <-].
  - rewrite decide_True; [by split|].
    unfold term_empty. cbn [MatchFields MatchExpressions].
    intros [H1 H2]. rewrite H1, H2 in Hne. simpl in Hne. by destruct Hne.
  - rewrite decide_False; [by rewrite app_nil_r|].
    unfold term_empty. cbn [MatchFields MatchExpressions].
    intros Hn. apply Hn.
    split; apply nil_length_inv; lia.
Qed.

Lemma terms_loop_Ok (terms : list NodeSelectorTerm) :
  ∀ (idx : Z) live acc live' acc',
    (0 ≤ idx)%Z →
    range_loop (term_body (mk_labelMap I)) idx terms (live, acc) = Ok (live', acc') →
    acc' = acc ++ nonempty_terms (extract_term I <$> terms)
    ∧ length live' = length live
    ∧ ∀ j, (j < Z.to_nat idx ∨ Z.to_nat idx + length terms ≤ j) →
           live' !! j = live !! j.
Proof.
  induction terms as [|term terms IH]; intros idx live acc live' acc' Hidx;
    cbn [range_loop].
  - intros [= <- <-]. unfold nonempty_terms. by rewrite fmap_nil, filter_nil, app_nil_r.
  - destruct (term_body _ _ _ _) as [[live1 acc1]|msg] eqn:Hb;
      cbn [mbind result_bind]; [|done].
    apply term_body_Ok in Hb as (-> & Hlen1 & Hfr1). intros Hloop.
    apply IH in Hloop as (-> & Hlen & Hfr); [|lia].
    rewrite fmap_cons.
    rewrite (nonempty_terms_cons (extract_term I term) (extract_term I <$> terms)).
    rewrite <- app_assoc.
    repeat split; [congruence|]. intros j Hj. cbn [length] in Hj.
    rewrite Hfr by lia. apply Hfr1. lia.
Qed.

Lemma injectAffinity_Ok_backup (a a' : Affinity) backup :
  injectAffinity a I = Ok (a', backup) →
  backup = affinity_backup I a.
Proof.
  unfold injectAffinity, affinity_backup, required_terms.
  destruct (aNodeAffinity a) as [nodeAffinity|]; [|by intros [= _ <-]].
  destruct (RequiredDuringSchedulingIgnoredDuringExecution nodeAffinity)
    as [required|]; [|by intros [= _ <-]].
  destruct (range_loop _ _ _ _) as [[live acc]|msg] eqn:Hloop;
    cbn [mbind result_bind]; [|done].
  apply terms_loop_Ok in Hloop as (-> & _); [|done]. rewrite app_nil_l.
  destruct (nonempty_terms _) as [|t ts]; cbn [length].
  - rewrite decide_True by done. by intros [= _ <-].
  - rewrite decide_False by done. by intros [= _ <-].
Qed.


Lemma removed_none (l : list NodeSelectorRequirement) :
  length (filter removed l) = 0 → Forall kept l ∧ filter kept l = l.
Proof.
  induction l as [|r l IH]; [done|].
  destruct (decide (ignored I (rKey r))) as [Hk|Hk].
  - rewrite filter_cons_False by (simpl; tauto). rewrite filter_cons_True by done.
    intros [Hall ->]%IH. split; [by constructor | done].
  - rewrite filter_cons_True by done. done.
Qed.

Lemma removed_one (l : list NodeSelectorRequirement) :
  length (filter removed l) = 1 →
  ∃ pre f post,
    l = pre ++ f :: post ∧ Forall kept pre ∧ ¬ ignored I (rKey f) ∧ Forall kept post.
Proof.
  induction l as [|r l IH]; [done|].
  destruct (decide (ignored I (rKey r))) as [Hk|Hk].
  - rewrite filter_cons_False by (simpl; tauto).
    intros (pre & f & post & -> & Hpre & Hf & Hpost)%IH.
    exists (r :: pre), f, post. split; [done|]. split; [by constructor | done].
  - rewrite filter_cons_True by done. cbn [length]. intros [= H0].
    apply removed_none in H0 as [Hall _]. by exists [], r, l.
Qed.


(** The match-field loop passes over the entries to keep, whatever the
    counters are. *)
Lemma field_loop_kept termIdx m (l : list NodeSelectorRequirement) :
  Forall kept l →
  ∀ idx st, range_loop (field_body (mk_labelMap I) termIdx m) idx l st = Ok st.
Proof.
  induction 1 as [|r l Hk _ IH]; intros idx [[live mfs] cnt]; cbn [range_loop]; [done|].
  rewrite field_body_kept by done. cbn [mbind result_bind]. apply IH.
Qed.

(** [append(s[:i], s[j:]...)] for [i ≤ j] within the length: the entries
    from [i] up to [j] are cut. *)
Lemma slice_cut_elems {A} (s : slice A) (i j : nat) :
  slice_wf s → i ≤ j → j ≤ len s →
  slice_to s (Z.of_nat i) = Ok (Slice (arr s) i)
  ∧ slice_from s (Z.of_nat j) = Ok (drop j (elems s))
  ∧ slice_wf (append (Slice (arr s) i) (drop j (elems s)))
  ∧ elems (append (Slice (arr s) i) (drop j (elems s)))
    = take i (elems s) ++ drop j (elems s).
Proof.
  intros Hwf Hij Hj. pose proof (length_elems s Hwf) as Hlen.
  unfold slice_wf, cap in Hwf.
  assert (length (drop j (elems s)) = len s - j) as Hdrop
    by (rewrite length_drop; lia).
  repeat split.
  - unfold slice_to, cap. rewrite bool_decide_eq_true_2 by lia.
    by rewrite Nat2Z.id.
  - unfold slice_from. rewrite bool_decide_eq_true_2 by lia.
    by rewrite Nat2Z.id.
  - unfold slice_wf, append, cap. cbn [len arr]. rewrite Hdrop.
    rewrite decide_True by lia. cbn [len arr].
    rewrite !length_app, length_take, Hdrop, length_drop. lia.
  - unfold append, cap. cbn [len arr]. rewrite Hdrop.
    rewrite decide_True by lia. unfold elems at 1. cbn [len arr].
    rewrite app_assoc. rewrite take_app_length'.
    + unfold elems. by rewrite take_take, Nat.min_l by lia.
    + rewrite length_app, length_take, Hdrop. lia.
Qed.

Lemma first_removed_None (l : list NodeSelectorRequirement) :
  list_find removed l = None → Forall kept l.
Proof.
  intros Hnone%list_find_None. eapply Forall_impl; [exact Hnone|].
  intros r Hr. by apply dec_stable.
Qed.

Lemma first_removed_split pre f post :
  Forall kept pre → ¬ ignored I (rKey f) →
  list_find removed (pre ++ f :: post) = Some (length pre, f).
Proof.
  intros Hpre Hf. apply list_find_Some. split; [by apply list_lookup_middle|].
  split; [done|]. intros j y Hj Hlt.
  rewrite lookup_app_l in Hj by done.
  rewrite Forall_lookup in Hpre. specialize (Hpre j y Hj). simpl. tauto.
Qed.

(** The one removal of the match-field loop: the lower bound is short by
    the number of match-expressions removed before. *)
Lemma field_loop_cut termIdx live t (m : nat) pre f post :
  live !! Z.to_nat termIdx = Some t →
  slice_wf (liveFields t) →
  elems (liveFields t) = pre ++ f :: post →
  Forall kept pre → ¬ ignored I (rKey f) → Forall kept post →
  m ≤ length pre →
  ∃ s',
    range_loop (field_body (mk_labelMap I) termIdx (Z.of_nat m)) 0 (pre ++ f :: post)
               (live, [], 0%Z)
      = Ok (<[Z.to_nat termIdx := LiveTerm (liveExpressions t) s']> live, [f], 1%Z)
    ∧ slice_wf s' ∧ elems s' = take (length pre - m) pre ++ post.
Proof.
  intros Ht Hwf Hel Hpre Hf Hpost Hm.
  rewrite range_loop_app, field_loop_kept by done.
  cbn [mbind result_bind range_loop].
  rewrite (field_body_removed _ _ _ _ _ _ _ t) by done.
  assert (S (length pre) ≤ len (liveFields t)) as Hlt.
  { rewrite <- (length_elems _ Hwf), Hel, length_app. simpl. lia. }
  destruct (slice_cut_elems (liveFields t) (length pre - m) (S (length pre)) Hwf)
    as (Hto & Hfrom & Hwf1 & Hel1); [lia | done |].
  replace (0 + Z.of_nat (length pre) - Z.of_nat m)%Z
    with (Z.of_nat (length pre - m)) by lia.
  replace (0 + Z.of_nat (length pre) - 0 + 1)%Z
    with (Z.of_nat (S (length pre))) by lia.
  rewrite Hto. cbn [mbind result_bind]. rewrite Hfrom. cbn [mbind result_bind].
  rewrite field_loop_kept by done.
  eexists. split; [reflexivity|]. split; [done|].
  rewrite Hel1, Hel, take_app_le by lia.
  rewrite (cons_middle f pre post), app_assoc.
  by rewrite drop_app_length' by (rewrite length_app; simpl; lia).
Qed.

Lemma term_body_one_removal termIdx live acc term :
  live !! Z.to_nat termIdx = Some (live_of_term term) →
  one_removal_term I term →
  ∃ t',
    term_body (mk_labelMap I) (live, acc) termIdx term
      = Ok (<[Z.to_nat termIdx := t']> live,
            acc ++ nonempty_terms [extract_term I term])
    ∧ slice_wf (liveExpressions t') ∧ slice_wf (liveFields t')
    ∧ term_of_live t' = cut_term I term.
Proof.
  intros Ht Hone.
  assert (Z.to_nat termIdx < length live) as Hti by (by eapply lookup_lt_Some).
  destruct (expression_loop I termIdx (MatchExpressions term) 0 live [] 0
              (live_of_term term) []) as (s' & cnt' & Hloop & Hwf & Hel);
    [done | apply slice_wf_mk_slice | apply elems_mk_slice | done |].
  pose proof Hloop as Hcnt.
  apply (requirement_loop_Ok _ termIdx) in Hcnt as (_ & Hcnt & _);
    [|intros *; apply expression_body_Ok].
  rewrite Z.add_0_l in Hcnt. subst cnt'.
  cbn [live_of_term liveFields app] in *.
  set (live1 := <[Z.to_nat termIdx := LiveTerm s' (mk_slice (MatchFields term))]> live)
    in *.
  assert (∃ t',
            (∃ mfs cnt2,
               range_loop (field_body (mk_labelMap I) termIdx
                             (Z.of_nat (length (filter removed (MatchExpressions term)))))
                          0 (MatchFields term) (live1, [], 0%Z)
                 = Ok (<[Z.to_nat termIdx := t']> live, mfs, cnt2))
            ∧ slice_wf (liveExpressions t') ∧ slice_wf (liveFields t')
            ∧ term_of_live t' = cut_term I term) as (t' & (mfs & cnt2 & Hf) & Hprops).
  { unfold one_removal_term in Hone. unfold cut_term, cut_fields.
    destruct (list_find removed (MatchFields term)) as [[i f0]|] eqn:Hfind.
    - destruct Hone as [Hm H1].
      apply removed_one in H1 as (pre & f & post & HMF & Hpre & Hf & Hpost).
      rewrite HMF, (first_removed_split pre f post Hpre Hf) in Hfind.
      injection Hfind as <- <-.
      destruct (field_loop_cut termIdx live1
                  (LiveTerm s' (mk_slice (MatchFields term)))
                  (length (filter removed (MatchExpressions term))) pre f post)
        as (s2 & Hfl & Hwf2 & Hel2); try done.
      { by apply list_lookup_insert_eq. }
      { apply slice_wf_mk_slice. }
      { cbn [liveFields]. by rewrite elems_mk_slice. }
      exists (LiveTerm s' s2). split.
      + eexists _, _. rewrite HMF, Hfl. subst live1. cbn [liveExpressions].
        by rewrite list_insert_insert_eq.
      + split; [done|]. split; [done|].
        unfold term_of_live. cbn [liveExpressions liveFields].
        rewrite Hel, Hel2, HMF. f_equal.
        rewrite take_app_le by lia.
        rewrite (cons_middle f pre post), app_assoc.
        by rewrite drop_app_length' by (rewrite length_app; simpl; lia).
    - apply first_removed_None in Hfind.
      exists (LiveTerm s' (mk_slice (MatchFields term))). split.
      + eexists _, _. by rewrite field_loop_kept.
      + split; [done|]. split; [apply slice_wf_mk_slice|].
        unfold term_of_live. cbn [liveExpressions liveFields].
        by rewrite Hel, elems_mk_slice. }
  exists t'. split; [|done].
  assert (∃ acc', term_body (mk_labelMap I) (live, acc) termIdx term
                  = Ok (<[Z.to_nat termIdx := t']> live, acc')) as [acc' Hbody].
  { unfold term_body. rewrite Hloop. cbn [mbind result_bind]. rewrite Hf.
    cbn [mbind result_bind]. destruct (decide _); by eexists. }
  rewrite Hbody. by apply term_body_Ok in Hbody as (-> & _).
Qed.







Lemma slice_to_negative {A} (s : slice A) (high : Z) :
  (high < 0)%Z → slice_to s high = Panic "slice bounds out of range".
Proof. intros Hneg. unfold slice_to. by rewrite bool_decide_eq_false_2 by lia. Qed.

Lemma term_body_crash termIdx live acc term :
  Z.to_nat termIdx < length live →
  crashing_term I term →
  ∃ msg, term_body (mk_labelMap I) (live, acc) termIdx term = Panic msg.
Proof.
  intros Hti (pre & f & post & HMF & Hpre & Hf & Hlt). unfold term_body.
  destruct (range_loop (expression_body _ _) _ _ _) as [[[live1 mes] cnt1]|msg] eqn:He;
    cbn [mbind result_bind]; [|by eexists].
  apply (requirement_loop_Ok _ termIdx) in He as (_ & -> & Hlen1 & _);
    [|intros *; apply expression_body_Ok].
  destruct (lookup_lt_is_Some_2 live1 (Z.to_nat termIdx)) as [t1 Ht1]; [lia|].
  rewrite HMF, range_loop_app, field_loop_kept by done.
  cbn [mbind result_bind range_loop].
  rewrite (field_body_removed _ _ _ _ _ _ _ t1) by done.
  rewrite slice_to_negative by lia. by eexists.
Qed.

Lemma terms_loop_crash (before after : list NodeSelectorTerm) term :
  crashing_term I term →
  ∀ (idx : Z) live acc,
    (0 ≤ idx)%Z →
    Z.to_nat idx + length before < length live →
    ∃ msg, range_loop (term_body (mk_labelMap I)) idx (before ++ term :: after)
                      (live, acc) = Panic msg.
Proof.
  intros Hcrash idx live acc Hidx Hlen. rewrite range_loop_app.
  destruct (range_loop _ idx before _) as [[live1 acc1]|msg] eqn:Hloop;
    cbn [mbind result_bind]; [|by eexists].
  apply terms_loop_Ok in Hloop as (_ & Hlen1 & _); [|done].
  cbn [range_loop].
  destruct (term_body_crash (idx + Z.of_nat (length before)) live1 acc1 term)
    as [msg ->]; [lia | done |].
  by eexists.
Qed.

Lemma injectAffinity_crash (a : Affinity) :
  Exists (crashing_term I) (required_terms a) →
  ∃ msg, injectAffinity a I = Panic msg.
Proof.
  unfold required_terms, injectAffinity.
  destruct (aNodeAffinity a) as [nodeAffinity|]; [|by intros ?%Exists_nil].
  destruct (RequiredDuringSchedulingIgnoredDuringExecution nodeAffinity)
    as [required|]; [|by intros ?%Exists_nil].
  intros (term & (before & after & Hsplit)%list_elem_of_split & Hcrash)%Exists_exists.
  rewrite Hsplit.
  destruct (terms_loop_crash before after term Hcrash 0
              (live_of_term <$> before ++ term :: after) []) as [msg ->];
    [done | rewrite length_fmap, length_app; simpl; lia |].
  by eexists.
Qed.

(** X8: [injectAffinity] panics, with a slice bound below zero, on every
    affinity with a required term whose first match-field to remove comes
    after fewer match-fields than the term has match-expressions to remove:
    the lower reslice of line 334 is offset by the match-expression count. *)
Theorem injectAffinity_panics (a : Affinity) :
  Exists (crashing_term I) (required_terms a) →
  ∃ msg, injectAffinity a I = Panic msg.
Proof. apply injectAffinity_crash. Qed.

End AffinityMore.

(** ** Where the affinity rewrite returns *)

(** [append(s[:i], s[j:]...)] with both bounds legal: the capacity does
    not shrink. *)
Lemma slice_cut {A} (s : slice A) (i j : Z) :
  slice_wf s → (0 ≤ i ≤ Z.of_nat (cap s))%Z → (0 ≤ j ≤ Z.of_nat (len s))%Z →
  ∃ lo hi,
    slice_to s i = Ok lo ∧ slice_from s j = Ok hi
    ∧ slice_wf (append lo hi)
    ∧ cap s ≤ cap (append lo hi)
    ∧ len (append lo hi) = Z.to_nat i + (len s - Z.to_nat j).
Proof.
  intros Hwf Hi Hj. pose proof (length_elems s Hwf) as Hlen.
  unfold slice_to, slice_from. rewrite !bool_decide_eq_true_2 by done.
  eexists _, _. split; [reflexivity|]. split; [reflexivity|].
  assert (length (drop (Z.to_nat j) (elems s)) = len s - Z.to_nat j) as Hdrop
    by (rewrite length_drop; lia).
  unfold slice_wf, append, cap in *. cbn [len arr]. rewrite Hdrop.
  destruct (decide (_ ≤ _)) as [Hfit|Hfit]; cbn [len arr];
    rewrite ?length_app, ?length_take, ?length_drop, ?Hdrop; lia.
Qed.

Section AffinityReturns.

Variable I : list string.

Local Abbreviation kept := (λ r : NodeSelectorRequirement, ignored I (rKey r)).
Local Abbreviation removed := (λ r : NodeSelectorRequirement, ¬ ignored I (rKey r)).

(** With no match-expression removed before, no reslice of the match-field
    loop is out of range, although from the second removal on the bounds are
    not the ones of a deletion: the slice never gets shorter than the list it
    was made from, less one. *)
Lemma field_loop_returns termIdx (n : Z) (l : list NodeSelectorRequirement) :
  ∀ (idx : Z) live mfs (cnt : Z) t,
    live !! Z.to_nat termIdx = Some t →
    slice_wf (liveFields t) →
    (n ≤ Z.of_nat (cap (liveFields t)))%Z →
    (0 ≤ cnt ≤ idx)%Z →
    (idx + Z.of_nat (length l) = n)%Z →
    (cnt = 0%Z → Z.of_nat (len (liveFields t)) = n) →
    (n - 1 ≤ Z.of_nat (len (liveFields t)))%Z →
    ∃ st', range_loop (field_body (mk_labelMap I) termIdx 0) idx l (live, mfs, cnt)
           = Ok st'.
Proof.
  induction l as [|mf l IH]; intros idx live mfs cnt t Ht Hwf Hcap Hcnt Hn Hfull Hlen;
    cbn [range_loop]; [by eexists|].
  cbn [length] in Hn.
  destruct (decide (ignored I (rKey mf))) as [Hk|Hk].
  - rewrite field_body_kept by done. cbn [mbind result_bind].
    apply (IH (idx + 1)%Z live mfs cnt t); try done; lia.
  - rewrite (field_body_removed _ _ _ _ _ _ _ _ t) by done.
    destruct (slice_cut (liveFields t) (idx - 0) (idx - cnt + 1) Hwf)
      as (lo & hi & -> & -> & Hwf1 & Hcap1 & Hlen1).
    { lia. }
    { destruct (decide (cnt = 0%Z)) as [H0|H0]; [specialize (Hfull H0)|]; lia. }
    cbn [mbind result_bind].
    assert (Z.to_nat termIdx < length live) as Hti by (by eapply lookup_lt_Some).
    apply (IH (idx + 1)%Z _ _ (cnt + 1)%Z (LiveTerm (liveExpressions t) (append lo hi)));
      cbn [liveFields]; try done; try lia.
    by apply list_lookup_insert_eq.
Qed.

Lemma term_body_one_kind termIdx live acc term :
  live !! Z.to_nat termIdx = Some (live_of_term term) →
  one_kind_term I term →
  ∃ st', term_body (mk_labelMap I) (live, acc) termIdx term = Ok st'.
Proof.
  intros Ht Hkind.
  assert (Z.to_nat termIdx < length live) as Hti by (by eapply lookup_lt_Some).
  destruct (expression_loop I termIdx (MatchExpressions term) 0 live [] 0
              (live_of_term term) []) as (s' & cnt' & Hloop & Hwf & Hel);
    [done | apply slice_wf_mk_slice | apply elems_mk_slice | done |].
  pose proof Hloop as Hcnt.
  apply (requirement_loop_Ok I _ termIdx) in Hcnt as (_ & Hcnt & _);
    [|intros *; apply expression_body_Ok].
  cbn [live_of_term liveFields app] in *.
  unfold term_body. rewrite Hloop. cbn [mbind result_bind].
  assert (∃ st', range_loop (field_body (mk_labelMap I) termIdx cnt') 0
                            (MatchFields term)
                            (<[Z.to_nat termIdx :=
                                 LiveTerm s' (mk_slice (MatchFields term))]> live,
                             [], 0%Z) = Ok st') as [[[live2 mfs] cnt2] ->].
  { destruct Hkind as [He|Hf].
    - rewrite He in Hcnt. cbn in Hcnt. subst cnt'.
      apply (field_loop_returns termIdx (Z.of_nat (length (MatchFields term))) _ _ _ _ _
               (LiveTerm s' (mk_slice (MatchFields term))));
        cbn [liveFields mk_slice len]; unfold cap; cbn [arr]; try done; try lia.
      + by apply list_lookup_insert_eq.
      + apply slice_wf_mk_slice.
    - apply (removed_none I) in Hf as [Hall _]. rewrite field_loop_kept by done.
      by eexists. }
  cbn [mbind result_bind]. destruct (decide _); by eexists.
Qed.

Lemma term_body_returns termIdx live acc term :
  live !! Z.to_nat termIdx = Some (live_of_term term) →
  returning_term I term →
  ∃ st', term_body (mk_labelMap I) (live, acc) termIdx term = Ok st'.
Proof.
  intros Ht [Hkind|Hone]; [by apply term_body_one_kind|].
  destruct (term_body_one_removal I termIdx live acc term Ht Hone) as (t' & -> & _).
  by eexists.
Qed.

Lemma terms_loop_returns (terms : list NodeSelectorTerm) : ∀ (idx : Z) live acc,
  (0 ≤ idx)%Z →
  Forall (returning_term I) terms →
  (∀ k term, terms !! k = Some term →
             live !! (Z.to_nat idx + k) = Some (live_of_term term)) →
  ∃ st', range_loop (term_body (mk_labelMap I)) idx terms (live, acc) = Ok st'.
Proof.
  induction terms as [|term terms IH]; intros idx live acc Hidx Hkind Hlive;
    cbn [range_loop]; [by eexists|].
  apply Forall_cons in Hkind as [Hk Hkind].
  destruct (term_body_returns idx live acc term) as [[live1 acc1] Hbody]; [|done|].
  { rewrite <- (Hlive 0 term eq_refl). f_equal. lia. }
  rewrite Hbody. cbn [mbind result_bind].
  apply term_body_Ok in Hbody as (_ & _ & Hframe).
  apply IH; [lia | done |].
  intros k t Hk'. rewrite Hframe by lia. rewrite <- (Hlive (S k) t Hk'). f_equal. lia.
Qed.

Lemma injectAffinity_returning (a : Affinity) :
  Forall (returning_term I) (required_terms a) →
  ∃ a', injectAffinity a I = Ok (a', affinity_backup I a).
Proof.
  intros Hkind.
  assert (∃ r, injectAffinity a I = Ok r) as [[a' backup] H].
  { revert Hkind. unfold required_terms, injectAffinity.
    destruct (aNodeAffinity a) as [nodeAffinity|]; [|by eexists].
    destruct (RequiredDuringSchedulingIgnoredDuringExecution nodeAffinity)
      as [required|]; [|by eexists].
    intros Hkind.
    destruct (terms_loop_returns (NodeSelectorTerms required) 0
                (live_of_term <$> NodeSelectorTerms required) [])
      as [[live acc] ->]; [done | done | |].
    - intros k term Hk. replace (Z.to_nat 0 + k) with k by lia.
      by rewrite list_lookup_fmap, Hk.
    - cbn [mbind result_bind]. destruct (decide (length acc = 0)); by eexists. }
  exists a'. rewrite H. by apply injectAffinity_Ok_backup in H as ->.
Qed.


End AffinityReturns.

(** ** The backup annotation and the pods [inject] returns on *)

Section InjectMore.

Variables TaintNodeNotReady TaintNodeUnreachable SelectorKey : string.
Variable marshal : ClustersNodeSelection → option string.

Local Abbreviation inject :=
  (inject TaintNodeNotReady TaintNodeUnreachable SelectorKey marshal).




Lemma inject_returns pod ks :
  returning_pod ks pod → ∃ pod', inject pod ks = Ok pod'.
Proof.
  intros Hret. destruct (skipInject pod) eqn:Hskip.
  - unfold inject. rewrite Hskip. by eexists.
  - rewrite inject_eq by done. unfold rewrite_affinity.
    destruct (Affinity_ (Spec pod)) as [a|] eqn:Ha; [|by eexists].
    destruct (injectAffinity_returning ks a) as [a' ->]; [by apply Hret|].
    by eexists.
Qed.

Lemma inject_crash pod ks :
  crashing_pod ks pod → ∃ msg, inject pod ks = Panic msg.
Proof.
  intros (a & Ha & Hcrash).
  assert (skipInject pod = false) as Hskip.
  { unfold skipInject. rewrite Ha. rewrite (bool_decide_eq_false_2 (Some a = None)) by done.
    by rewrite andb_false_r. }
  rewrite inject_eq by done. unfold rewrite_affinity. rewrite Ha.
  destruct (injectAffinity_crash ks a Hcrash) as [msg ->]. by eexists.
Qed.

End InjectMore.

(** ** The admission decision and the registry *)

Lemma trySetNodeName_frame SelectedNodeKey whsvr pod :
  ∃ nodeName,
    trySetNodeName SelectedNodeKey whsvr pod
    = set_Spec (set_NodeName nodeName (Spec pod)) pod.
Proof.
  assert (pod = set_Spec (set_NodeName (NodeName (Spec pod)) (Spec pod)) pod) as Hid
    by (by destruct pod as [? ? ? ? ? []]).
  unfold trySetNodeName, trySetNodeName_log.
  destruct (Volumes (Spec pod)) as [volumes|]; [|by eexists].
  rewrite scan_volumes_find.
  destruct (list_find _ volumes) as [[i v]|]; cbn [snd]; by eexists.
Qed.

Section MutateMore.

Variable UnschedulableCache : Type.
Variable Add : string → string → UnschedulableCache → UnschedulableCache.
Variable GetFreezeNodes : string → UnschedulableCache → list string.
Variables TaintNodeNotReady TaintNodeUnreachable : string.
Variables SelectorKey SelectedNodeKey CreatedbyDescheduler : string.
Variable IsVirtualPod : Pod → bool.
Variable unmarshal : string → Pod + string.
Variable marshal : ClustersNodeSelection → option string.
Variable ReplacePodNodeNameNodeAffinity :
  option Affinity → string → list string → option Affinity.
Variable CreateJSONPatch : Pod → Pod → string * option string.

Local Abbreviation shouldSkip := (shouldSkip CreatedbyDescheduler IsVirtualPod).
Local Abbreviation getUnschedulableNodes :=
  (getUnschedulableNodes UnschedulableCache GetFreezeNodes).
Local Abbreviation inject :=
  (inject TaintNodeNotReady TaintNodeUnreachable SelectorKey marshal).
Local Abbreviation mutate :=
  (mutate UnschedulableCache Add GetFreezeNodes
          TaintNodeNotReady TaintNodeUnreachable SelectorKey SelectedNodeKey
          CreatedbyDescheduler IsVirtualPod unmarshal marshal
          ReplacePodNodeNameNodeAffinity CreateJSONPatch).

(** X11: the only requests that write to the registry are the UPDATEs of
    pods that are not skipped, have an owner and carry a non-empty
    "unschedulable-node" annotation, and the write is one [Add] of that node
    for that owner. Every other request that is answered leaves the registry
    as it was. *)
Theorem mutate_registry_writes whsvr req freezeCache resp freezeCache' :
  mutate whsvr req freezeCache = Ok (resp, freezeCache') →
  freezeCache' = freezeCache
  ∨ (Kind req = "Pod" ∧ Operation req = Update
     ∧ ∃ pod,
         unmarshal (Raw req) = inl pod ∧ shouldSkip pod = false
         ∧ getOwnerRef pod ≠ ""
         ∧ index_map (Annotations pod) "unschedulable-node" ≠ ""
         ∧ freezeCache' =
             Add (index_map (Annotations pod) "unschedulable-node")
                 (getOwnerRef pod) freezeCache).
Proof.
  unfold mutate. destruct (decide (Kind req = "Pod")) as [Hk|Hk]; [|intros [= _ <-]; by left].
  destruct (unmarshal (Raw req)) as [pod|err] eqn:Hraw; [|intros [= _ <-]; by left].
  destruct (shouldSkip pod) eqn:Hskip; [intros [= _ <-]; by left|].
  destruct (decide (Operation req = Update)) as [Hop|Hop].
  - intros [= _ <-]. unfold setUnschedulableNodes.
    destruct (decide (String.length (getOwnerRef pod) = 0)) as [Hr|Hr]; [by left|].
    destruct (decide (0 < String.length _)) as [Hn|Hn]; [|by left].
    right. repeat split; try done. exists pod. repeat split; try done.
    + by rewrite <- string_length_0.
    + rewrite <- string_length_0. unfold index_map. lia.
  - destruct (inject _ _) as [clone|msg]; cbn [mbind result_bind]; [|done].
    destruct (CreateJSONPatch _ _) as [patch e]. intros [= _ <-]. by left.
Qed.

(** The rewriting branch of [mutate], when the frozen-node exclusion does
    not apply. *)
Lemma mutate_rewrite whsvr req freezeCache pod :
  Kind req = "Pod" → unmarshal (Raw req) = inl pod →
  shouldSkip pod = false → Operation req ≠ Update →
  (Operation req = Create → getUnschedulableNodes (getOwnerRef pod) pod freezeCache = []) →
  mutate whsvr req freezeCache =
    clone ← inject (trySetNodeName SelectedNodeKey whsvr pod) (ignoreSelectorKeys whsvr);
    Ok (mkResponse true
          (Some (match (CreateJSONPatch pod clone).2 with
                 | Some msg => mkStatus 403 msg
                 | None => mkStatus 0 ""
                 end))
          (CreateJSONPatch pod clone).1 (Some PatchTypeJSONPatch),
        freezeCache).
Proof.
  intros Hkind Hraw Hskip Hop Hnodes. unfold mutate.
  rewrite decide_True by done. rewrite Hraw, Hskip. rewrite decide_False by done.
  assert ((if decide (Operation req = Create)
           then if decide (0 < length (getUnschedulableNodes (getOwnerRef pod) pod
                                         freezeCache))
                then set_Spec (set_Affinity
                                 (ReplacePodNodeNameNodeAffinity
                                    (Affinity_ (Spec pod)) (getOwnerRef pod)
                                    (getUnschedulableNodes (getOwnerRef pod) pod
                                       freezeCache))
                                 (Spec pod)) pod
                else pod
           else pod) = pod) as ->.
  { destruct (decide (Operation req = Create)) as [Hc|Hc]; [|done].
    rewrite Hnodes by done. by rewrite decide_False by (simpl; lia). }
  destruct (inject _ _) as [clone|msg]; cbn [mbind result_bind]; [|done].
  by destruct (CreateJSONPatch pod clone) as [patch [e|]].
Qed.

(** X12: the response to a request that is not an UPDATE depends on the
    registry only for the CREATE of a pod that has an owner and no node name
    yet. For every other such request the response is the same whatever the
    registry holds (and, when the rewrite panics, it panics whatever the
    registry holds), and the registry is handed back untouched. *)
Theorem mutate_ignores_registry whsvr req freezeCache1 freezeCache2 :
  Operation req ≠ Update →
  (∀ pod, unmarshal (Raw req) = inl pod → Operation req = Create →
          getOwnerRef pod = "" ∨ NodeName (Spec pod) ≠ "") →
  mutate whsvr req freezeCache2 =
    match mutate whsvr req freezeCache1 with
    | Ok (resp, _) => Ok (resp, freezeCache2)
    | Panic msg => Panic msg
    end.
Proof.
  intros Hop Hpod.
  destruct (decide (Kind req = "Pod")) as [Hk|Hk];
    [|unfold mutate; by rewrite !decide_False by done].
  destruct (unmarshal (Raw req)) as [pod|err] eqn:Hraw;
    [|unfold mutate; rewrite !decide_True by done; by rewrite Hraw].
  destruct (shouldSkip pod) eqn:Hskip;
    [unfold mutate; rewrite !decide_True by done; by rewrite Hraw, Hskip|].
  assert (∀ freezeCache,
            Operation req = Create →
            getUnschedulableNodes (getOwnerRef pod) pod freezeCache = []) as Hnodes.
  { intros freezeCache Hc. unfold getUnschedulableNodes.
    destruct (Hpod pod eq_refl Hc) as [Hr|Hn].
    - by rewrite decide_True by (by rewrite Hr).
    - destruct (decide (String.length (getOwnerRef pod) = 0)); [done|].
      by rewrite decide_True by (by rewrite string_length_0). }
  rewrite !mutate_rewrite with (pod := pod) by auto.
  by destruct (inject _ _).
Qed.

(** X13: a request for a pod that is not skipped, is not an UPDATE, has
    no frozen node to exclude and carries only affinity terms on which the
    rewrite returns is answered: [mutate] returns allowed=true with a JSON patch, the patch being
    the difference between the pod as it came and the pod after the claim
    lookup and the rewrite, and status code 403 exactly when computing that
    difference failed. The registry is left as it was. *)
Theorem mutate_answers whsvr req freezeCache pod :
  Kind req = "Pod" → unmarshal (Raw req) = inl pod →
  shouldSkip pod = false → Operation req ≠ Update →
  (Operation req = Create → getUnschedulableNodes (getOwnerRef pod) pod freezeCache = []) →
  returning_pod (ignoreSelectorKeys whsvr) pod →
  ∃ resp clone,
    mutate whsvr req freezeCache = Ok (resp, freezeCache)
    ∧ inject (trySetNodeName SelectedNodeKey whsvr pod) (ignoreSelectorKeys whsvr)
      = Ok clone
    ∧ Allowed resp = true
    ∧ PatchType resp = Some PatchTypeJSONPatch
    ∧ Patch resp = (CreateJSONPatch pod clone).1
    ∧ ((∃ status, Result resp = Some status ∧ Code status = 403%Z)
       ↔ is_Some (CreateJSONPatch pod clone).2).
Proof.
  intros Hkind Hraw Hskip Hop Hnodes Hret.
  rewrite mutate_rewrite with (pod := pod) by done.
  destruct (inject_returns TaintNodeNotReady TaintNodeUnreachable SelectorKey
              marshal (trySetNodeName SelectedNodeKey whsvr pod)
              (ignoreSelectorKeys whsvr)) as [clone Hclone].
  { destruct (trySetNodeName_frame SelectedNodeKey whsvr pod) as [n ->].
    intros a Ha. by apply Hret. }
  rewrite Hclone. cbn [mbind result_bind]. eexists _, clone.
  split; [reflexivity|]. cbn [Allowed PatchType Patch Result]. repeat split; try done.
  - intros (status & [= <-] & Hcode).
    destruct (CreateJSONPatch pod clone).2; [by eexists | done].
  - intros [msg ->]. by eexists.
Qed.

(** X14: a request for a pod that is not skipped, is not an UPDATE, has
    no frozen node to exclude and carries a crashing affinity term gets no
    response: [mutate] panics inside the affinity rewrite. *)
Theorem mutate_panics whsvr req freezeCache pod :
  Kind req = "Pod" → unmarshal (Raw req) = inl pod →
  shouldSkip pod = false → Operation req ≠ Update →
  (Operation req = Create → getUnschedulableNodes (getOwnerRef pod) pod freezeCache = []) →
  crashing_pod (ignoreSelectorKeys whsvr) pod →
  ∃ msg, mutate whsvr req freezeCache = Panic msg.
Proof.
  intros Hkind Hraw Hskip Hop Hnodes Hcrash.
  rewrite mutate_rewrite with (pod := pod) by done.
  destruct (inject_crash TaintNodeNotReady TaintNodeUnreachable SelectorKey
              marshal (trySetNodeName SelectedNodeKey whsvr pod)
              (ignoreSelectorKeys whsvr)) as [msg ->]; [|by eexists].
  destruct (trySetNodeName_frame SelectedNodeKey whsvr pod) as [n ->].
  destruct Hcrash as (a & Ha & Hex). by exists a.
Qed.

(** X15: with a registry whose [GetFreezeNodes] returns what [Add]
    recorded, the node that the UPDATE of a pod reports for its owner is among
    the nodes to avoid for every pod of that owner that has no node name yet,
    as the next CREATE reads them. *)
Theorem frozen_node_round_trip whsvr req freezeCache pod node :
  (∀ n owner cache, n ∈ GetFreezeNodes owner (Add n owner cache)) →
  Kind req = "Pod" → unmarshal (Raw req) = inl pod →
  shouldSkip pod = false → Operation req = Update →
  getOwnerRef pod ≠ "" →
  index_map (Annotations pod) "unschedulable-node" = node → node ≠ "" →
  ∃ resp freezeCache',
    mutate whsvr req freezeCache = Ok (resp, freezeCache')
    ∧ ∀ pod',
        getOwnerRef pod' = getOwnerRef pod → NodeName (Spec pod') = "" →
        node ∈ getUnschedulableNodes (getOwnerRef pod') pod' freezeCache'.
Proof.
  intros Hreg Hkind Hraw Hskip Hop Href Hnode Hne. unfold mutate.
  rewrite decide_True by done. rewrite Hraw, Hskip. rewrite decide_True by done.
  eexists _, _. split; [reflexivity|]. intros pod' Hsame Hnn.
  rewrite <- string_length_0 in Href, Hne.
  unfold getUnschedulableNodes, setUnschedulableNodes.
  rewrite Hsame, Hnn. rewrite !decide_False by (simpl; lia).
  unfold index_map in Hnode. rewrite Hnode.
  rewrite decide_True by lia. apply Hreg.
Qed.

End MutateMore.

(** ** The further properties at the sample inputs *)

(** [inject_frame] on the pod of the design document's example. *)
Lemma inject_frame_witness :
  ∃ pod',
    sample_inject pod_zone_gpu ["gpu"] = Ok pod'
    ∧ Name pod' = "web-0" ∧ Labels pod' = None ∧ NodeName (Spec pod') = "".
Proof.
  assert (∃ pod', sample_inject pod_zone_gpu ["gpu"] = Ok pod') as [pod' H]
    by (eexists; vm_compute; reflexivity).
  destruct (inject_frame sample_TaintNodeNotReady sample_TaintNodeUnreachable
              sample_SelectorKey render pod_zone_gpu ["gpu"] pod' H)
    as (_ & Hname & Hlabels & _ & Hnode & _).
  exists pod'. repeat split; [exact H | exact Hname | exact Hlabels | exact Hnode].
Defined.

(** [inject_tolerates_both] on the same pod, which came without
    tolerations. *)
Lemma inject_tolerates_both_witness :
  ∃ pod' tolerations,
    sample_inject pod_zone_gpu ["gpu"] = Ok pod'
    ∧ Tolerations (Spec pod') = Some tolerations
    ∧ canonical sample_TaintNodeNotReady ∈ tolerations
    ∧ canonical sample_TaintNodeUnreachable ∈ tolerations.
Proof.
  assert (∃ pod', sample_inject pod_zone_gpu ["gpu"] = Ok pod') as [pod' H]
    by (eexists; vm_compute; reflexivity).
  destruct (inject_tolerates_both sample_TaintNodeNotReady sample_TaintNodeUnreachable
              sample_SelectorKey render pod_zone_gpu ["gpu"] pod') as [_ Hboth].
  - intros cns. by eexists.
  - exact H.
  - destruct (Hboth eq_refl) as (tolerations & Htol & Hnr & Hur).
    exists pod', tolerations. repeat split; [exact H | exact Htol | exact Hnr | exact Hur].
Defined.





(** [injectAffinity_panics] on a term with a match-expression and a
    match-field. *)
Lemma injectAffinity_panics_witness :
  ∃ msg, injectAffinity affinity_expression_and_field [] = Panic msg.
Proof.
  apply (injectAffinity_panics [] affinity_expression_and_field).
  constructor. exists [], field_in_node_1, [].
  split; [reflexivity|]. split; [constructor|]. split.
  - intros [Hin _]. by apply elem_of_nil in Hin.
  - vm_compute. lia.
Defined.


(** [mutate_registry_writes] on the UPDATE that reports node-7. *)
Lemma mutate_registry_writes_witness :
  ({[ "u1" := {[ "node-7" ]} ]} : gmap string (gset string)) = ∅
  ∨ (Kind (request Update "{}") = "Pod" ∧ Operation (request Update "{}") = Update
     ∧ ∃ pod,
         decode_as pod_reporting (Raw (request Update "{}")) = inl pod
         ∧ shouldSkip sample_CreatedbyDescheduler
             (IsVirtualPod_labelled sample_VirtualPodLabel) pod = false
         ∧ getOwnerRef pod ≠ ""
         ∧ index_map (Annotations pod) "unschedulable-node" ≠ ""
         ∧ ({[ "u1" := {[ "node-7" ]} ]} : gmap string (gset string))
           = UnschedulableCache_Add (index_map (Annotations pod) "unschedulable-node")
               (getOwnerRef pod) ∅).
Proof.
  apply (mutate_registry_writes (gmap string (gset string))
           UnschedulableCache_Add UnschedulableCache_GetFreezeNodes
           sample_TaintNodeNotReady sample_TaintNodeUnreachable
           sample_SelectorKey sample_SelectedNodeKey sample_CreatedbyDescheduler
           (IsVirtualPod_labelled sample_VirtualPodLabel) (decode_as pod_reporting)
           render keep_affinity empty_patch
           server_plain (request Update "{}") ∅ (mkResponse true None "" None)).
  exact mutate_update_records.
Defined.

(** [mutate_ignores_registry] on the CREATE of a pod without owner. *)
Lemma mutate_ignores_registry_witness :
  sample_mutate pod_unlabelled server_plain (request Create "{}")
                {[ "u1" := {[ "node-7" ]} ]}
  = match sample_mutate pod_unlabelled server_plain (request Create "{}") ∅ with
    | Ok (resp, _) => Ok (resp, {[ "u1" := {[ "node-7" ]} ]})
    | Panic msg => Panic msg
    end.
Proof.
  apply (mutate_ignores_registry (gmap string (gset string))
           UnschedulableCache_Add UnschedulableCache_GetFreezeNodes
           sample_TaintNodeNotReady sample_TaintNodeUnreachable
           sample_SelectorKey sample_SelectedNodeKey sample_CreatedbyDescheduler
           (IsVirtualPod_labelled sample_VirtualPodLabel) (decode_as pod_unlabelled)
           render keep_affinity empty_patch).
  - discriminate.
  - intros pod Hpod _. vm_compute in Hpod. injection Hpod as <-. left. reflexivity.
Defined.

(** [mutate_answers] on the CREATE of a pod with one match-field. *)
Lemma mutate_answers_witness :
  ∃ resp,
    sample_mutate pod_one_field server_plain (request Create "{}") ∅ = Ok (resp, ∅)
    ∧ Allowed resp = true ∧ PatchType resp = Some PatchTypeJSONPatch.
Proof.
  destruct (mutate_answers (gmap string (gset string))
              UnschedulableCache_Add UnschedulableCache_GetFreezeNodes
              sample_TaintNodeNotReady sample_TaintNodeUnreachable
              sample_SelectorKey sample_SelectedNodeKey sample_CreatedbyDescheduler
              (IsVirtualPod_labelled sample_VirtualPodLabel) (decode_as pod_one_field)
              render keep_affinity empty_patch
              server_plain (request Create "{}") ∅ pod_one_field)
    as (resp & clone & H & _ & Hallowed & Htype & _).
  - reflexivity.
  - reflexivity.
  - reflexivity.
  - discriminate.
  - intros _. reflexivity.
  - intros a [= <-]. constructor; [|constructor]. left. left. reflexivity.
  - exists resp. repeat split; [exact H | exact Hallowed | exact Htype].
Defined.

(** [mutate_panics] on the CREATE of a pod with a match-expression and a
    match-field in one term. *)
Lemma mutate_panics_witness :
  ∃ msg,
    sample_mutate pod_expression_and_field server_plain (request Create "{}") ∅
    = Panic msg.
Proof.
  apply (mutate_panics (gmap string (gset string))
           UnschedulableCache_Add UnschedulableCache_GetFreezeNodes
           sample_TaintNodeNotReady sample_TaintNodeUnreachable
           sample_SelectorKey sample_SelectedNodeKey sample_CreatedbyDescheduler
           (IsVirtualPod_labelled sample_VirtualPodLabel)
           (decode_as pod_expression_and_field)
           render keep_affinity empty_patch
           server_plain (request Create "{}") ∅ pod_expression_and_field).
  - reflexivity.
  - reflexivity.
  - reflexivity.
  - discriminate.
  - intros _. reflexivity.
  - exists affinity_expression_and_field. split; [reflexivity|].
    constructor. exists [], field_in_node_1, [].
    split; [reflexivity|]. split; [constructor|]. split.
    + intros [Hin _]. by apply elem_of_nil in Hin.
    + vm_compute. lia.
Defined.

(** The sample registry returns what it recorded. *)
Lemma registry_records n owner (cache : gmap string (gset string)) :
  n ∈ UnschedulableCache_GetFreezeNodes owner (UnschedulableCache_Add n owner cache).
Proof.
  unfold UnschedulableCache_GetFreezeNodes, UnschedulableCache_Add.
  rewrite lookup_insert_eq. cbn [default id]. apply elem_of_elements.
  apply elem_of_union_l. by apply elem_of_singleton.
Qed.

(** [frozen_node_round_trip] on the UPDATE that reports node-7 for owner
    u1 and a new pod of u1. *)
Lemma frozen_node_round_trip_witness :
  ∃ resp freezeCache',
    sample_mutate pod_reporting server_plain (request Update "{}") ∅
      = Ok (resp, freezeCache')
    ∧ "node-7" ∈ getUnschedulableNodes (gmap string (gset string))
                   UnschedulableCache_GetFreezeNodes "u1" pod_of_u1 freezeCache'.
Proof.
  destruct (frozen_node_round_trip (gmap string (gset string))
              UnschedulableCache_Add UnschedulableCache_GetFreezeNodes
              sample_TaintNodeNotReady sample_TaintNodeUnreachable
              sample_SelectorKey sample_SelectedNodeKey sample_CreatedbyDescheduler
              (IsVirtualPod_labelled sample_VirtualPodLabel) (decode_as pod_reporting)
              render keep_affinity empty_patch
              server_plain (request Update "{}") ∅ pod_reporting "node-7")
    as (resp & freezeCache' & H & Hnodes).
  - apply registry_records.
  - reflexivity.
  - reflexivity.
  - reflexivity.
  - reflexivity.
  - discriminate.
  - reflexivity.
  - discriminate.
  - exists resp, freezeCache'. split; [exact H|].
    apply (Hnodes pod_of_u1); reflexivity.
Defined.
